(** * The Shenandoah allocation pacer (shenandoahPacer.cpp)

    A shallow embedding of [ShenandoahPacer]: the per-phase tax computation
    ([setup_for_mark], [setup_for_evac], [setup_for_updaterefs],
    [setup_for_idle]), the budget installation ([restart_with]), the
    lock-free claim ([claim_for_alloc]) and the bounded-wait throttle
    ([pace_for_alloc]).

    - [size_t], [uintx], [intptr_t] and [jlong] are 64-bit (LP64); they are
      carried as [Z] with the wrap-around written out.
    - [double] is IEEE 754 binary64, carried as [spec_float] with the
      operations of [SpecFloat] at precision 53 and maximal exponent 1024.
    - The compare-and-swap loops run against a schedule: what the other
      threads do to [_budget] between this thread's load and its cmpxchg.
    - The clock and the other threads met by [pace_for_alloc] are an
      oracle: one [tick] per round of its loop.
    - The value of a double is a rational; the accuracy of the computed
      tax is stated against the exact rational formula. *)

From Stdlib Require Import QArith Qpower Qminmax Lqa.
From Stdlib Require Import ZArith Lia List Bool ZifyBool.
From Stdlib Require Import Floats.SpecFloat.
Import ListNotations.
Local Open Scope Z_scope.

(** ** Machine integers *)

Module LP64.

Definition BitsPerWord : Z := 64.
Definition LogHeapWordSize : Z := 3.

Definition max_uintx : Z := 2 ^ BitsPerWord - 1.
Definition min_intptr : Z := - 2 ^ (BitsPerWord - 1).
Definition max_intptr : Z := 2 ^ (BitsPerWord - 1) - 1.

(** Unsigned wrap-around: [size_t] and [uintx] arithmetic. *)
Definition to_size_t (z : Z) : Z := z mod 2 ^ BitsPerWord.

(** Two's complement reading: a [size_t] stored into [intptr_t] or [jlong]. *)
Definition to_intptr (z : Z) : Z :=
  let u := z mod 2 ^ BitsPerWord in
  if u <? 2 ^ (BitsPerWord - 1) then u else u - 2 ^ BitsPerWord.

Definition is_size_t (z : Z) : Prop := 0 <= z <= max_uintx.
Definition is_intptr (z : Z) : Prop := min_intptr <= z <= max_intptr.

End LP64.

(** ** IEEE 754 binary64 *)

Module Binary64.

Definition prec : Z := 53.
Definition emax : Z := 1024.

Definition double : Type := spec_float.

Definition mul : double -> double -> double := SFmul prec emax.
Definition div : double -> double -> double := SFdiv prec emax.
Definition sub : double -> double -> double := SFsub prec emax.

(** [a > b], [a >= b] of C++: false as soon as one side is a NaN. *)
Definition gt (a b : double) : bool := SFltb b a.
Definition ge (a b : double) : bool := SFleb b a.

(** An integer converted to [double], rounded to nearest even. *)
Definition of_Z (n : Z) : double := binary_normalize prec emax n 0 false.

(** The literals of the source. *)
Definition d1_0 : double := of_Z 1.
Definition d2_0 : double := of_Z 2.
Definition d3_0 : double := of_Z 3.
Definition d1000_0 : double := of_Z 1000.
(** [1.1]: the double nearest to 11/10, 0x3FF199999999999A. *)
Definition d1_1 : double := S754_finite false 4953959590107546 (-52).

(** A [double] truncated toward zero; [None] for NaN and the infinities. *)
Definition trunc (d : double) : option Z :=
  match d with
  | S754_zero _ => Some 0
  | S754_finite s m e =>
      let a := Z.shiftl (Zpos m) e in
      Some (if s then - a else a)
  | S754_infinity _ | S754_nan => None
  end.

(** Conversion of a [double] to an integer type is undefined in C++ when
    the truncated value does not fit the destination; a platform still
    yields some value of that type ([0x8000000000000000] from cvttsd2si on
    x86-64, a saturated one on AArch64). [indefinite] is that value. *)
Class Platform : Type := { indefinite : double -> Z }.

Definition to_size_t `{Platform} (d : double) : Z :=
  match trunc d with
  | Some z => if (0 <=? z) && (z <=? LP64.max_uintx) then z
              else LP64.to_size_t (indefinite d)
  | None => LP64.to_size_t (indefinite d)
  end.

Definition to_intptr `{Platform} (d : double) : Z :=
  match trunc d with
  | Some z => if (LP64.min_intptr <=? z) && (z <=? LP64.max_intptr) then z
              else LP64.to_intptr (indefinite d)
  | None => LP64.to_intptr (indefinite d)
  end.

End Binary64.

Import Binary64.

(** ** MAX2 of globalDefinitions.hpp: [(a > b) ? a : b] *)

Definition MAX2_double (a b : double) : double := if gt a b then a else b.
Definition MAX2_intptr (a b : Z) : Z := if a >? b then a else b.

(** ** The delay histogram *)

(** Modelled from the spec: the class of [_delays] (shenandoahNumberSeq) is
    not in the source tree. A delay of 0 ms falls in bucket 0, a delay [d > 0]
    in bucket [floor (log2 d) + 1]; [add] increments that bucket's counter. *)
Definition histogram : Type := Z -> Z.

Definition bucket (ms : Z) : Z := if ms =? 0 then 0 else Z.log2 ms + 1.

Definition histogram_add (ms : Z) (h : histogram) : histogram :=
  fun c => if c =? bucket ms then h c + 1 else h c.

Definition histogram_empty : histogram := fun _ => 0.

(** ** State, collaborators and flags *)

Record pacer : Type := mkPacer {
  budget : Z;          (* volatile intptr_t _budget *)
  tax_rate : double;   (* volatile jdouble _tax_rate *)
  delays : histogram   (* BinaryMagnitudeSeq _delays *)
}.

Definition set_budget (b : Z) (p : pacer) : pacer :=
  mkPacer b (tax_rate p) (delays p).
Definition set_tax_rate (t : double) (p : pacer) : pacer :=
  mkPacer (budget p) t (delays p).
Definition delays_add (ms : Z) (p : pacer) : pacer :=
  mkPacer (budget p) (tax_rate p) (histogram_add ms (delays p)).

(** What the heap answers at setup time, each a [size_t]. *)
Record heap : Type := mkHeap {
  used : Z;        (* _heap->used() *)
  available : Z;   (* _heap->free_set()->available() *)
  live_data : Z;   (* _heap->collection_set()->live_data() *)
  capacity : Z     (* _heap->capacity() *)
}.

(** The VM flags read by the pacer, each a [uintx]. *)
Record flags : Type := mkFlags {
  ShenandoahPacingCycleSlack : Z;
  ShenandoahPacingIdleSlack : Z;
  ShenandoahPacingMaxDelay : Z
}.

(** ** Interference *)

(** One entry per failed round of a compare-and-swap loop: what the other
    threads did to [_budget] between the load and the cmpxchg. Once the
    schedule is exhausted the thread runs undisturbed. *)
Definition schedule : Type := list (Z -> Z).

(** ** The pacer *)

Section Pacer.

Context `{Platform}.
Variable fl : flags.

(** [restart_with]: the do-while around cmpxchg. *)
Fixpoint restart_loop (env : schedule) (initial : Z) (b : Z) : Z :=
  let cur := b in
  match env with
  | [] => initial
  | f :: env' =>
      let seen := f b in
      if seen =? cur then initial else restart_loop env' initial seen
  end.

(** [(size_t)(non_taxable_bytes * tax_rate) >> LogHeapWordSize] *)
Definition initial_budget (non_taxable_bytes : Z) (rate : double) : Z :=
  LP64.to_intptr
    (Z.shiftr (to_size_t (mul (of_Z non_taxable_bytes) rate))
              LP64.LogHeapWordSize).

Definition restart_with (env : schedule) (non_taxable_bytes : Z)
           (rate : double) (p : pacer) : pacer :=
  let initial := initial_budget non_taxable_bytes rate in
  let p := set_budget (restart_loop env initial (budget p)) p in
  set_tax_rate rate p.

Definition setup_for_mark (env : schedule) (h : heap) (p : pacer) : pacer :=
  let used := used h in
  let free := available h in
  let non_taxable :=
    LP64.to_size_t (free * ShenandoahPacingCycleSlack fl) / 100 in
  let taxable := LP64.to_size_t (free - non_taxable) in
  let tax := div (mul d1_0 (of_Z used)) (of_Z taxable) in
  let tax := mul tax d3_0 in
  let tax := MAX2_double d1_0 tax in
  let tax := mul tax d1_1 in
  restart_with env (LP64.to_intptr non_taxable) tax p.

Definition setup_for_evac (env : schedule) (h : heap) (p : pacer) : pacer :=
  let cset := live_data h in
  let free := available h in
  let non_taxable :=
    LP64.to_size_t (free * ShenandoahPacingCycleSlack fl) / 100 in
  let taxable := LP64.to_size_t (free - non_taxable) in
  let tax := div (mul d1_0 (of_Z cset)) (of_Z taxable) in
  let tax := mul tax d2_0 in
  let tax := MAX2_double d1_0 tax in
  let tax := mul tax d1_1 in
  restart_with env (LP64.to_intptr non_taxable) tax p.

Definition setup_for_updaterefs (env : schedule) (h : heap) (p : pacer)
  : pacer :=
  let used := used h in
  let free := available h in
  let non_taxable :=
    LP64.to_size_t (free * ShenandoahPacingCycleSlack fl) / 100 in
  let taxable := LP64.to_size_t (free - non_taxable) in
  let tax := div (mul d1_0 (of_Z used)) (of_Z taxable) in
  let tax := mul tax d1_0 in
  let tax := MAX2_double d1_0 tax in
  let tax := mul tax d1_1 in
  restart_with env (LP64.to_intptr non_taxable) tax p.

Definition setup_for_idle (env : schedule) (h : heap) (p : pacer) : pacer :=
  let initial :=
    LP64.to_size_t (capacity h * ShenandoahPacingIdleSlack fl) / 100 in
  let tax := d1_0 in
  restart_with env (LP64.to_intptr initial) tax p.

(** [MAX2<intptr_t>(1, words * load_acquire(&_tax_rate))] *)
Definition claim_tax (words : Z) (rate : double) : Z :=
  MAX2_intptr 1 (to_intptr (mul (of_Z words) rate)).

(** The do-while of [claim_for_alloc]. Besides the result and the budget
    left in memory, the loop reports the value its last load observed. *)
Fixpoint claim_loop (env : schedule) (tax : Z) (b : Z) : bool * Z * Z :=
  let cur := b in
  if cur <? tax then (false, cur, b)
  else
    let new_val := cur - tax in
    match env with
    | [] => (true, cur, new_val)
    | f :: env' =>
        let seen := f b in
        if seen =? cur then (true, cur, new_val)
        else claim_loop env' tax seen
    end.

Definition claim_for_alloc (env : schedule) (words : Z) (force : bool)
           (p : pacer) : bool * pacer :=
  let tax := claim_tax words (tax_rate p) in
  let '(ok, _, b) := claim_loop env tax (budget p) in
  (ok, set_budget b p).

(** The value the last load of the claim observed. *)
Definition claim_observed (env : schedule) (words : Z) (p : pacer) : Z :=
  let '(_, cur, _) := claim_loop env (claim_tax words (tax_rate p)) (budget p) in
  cur.

(** One round of the loop of [pace_for_alloc], as the environment decides
    it: what the other threads did to the budget and the tax rate while
    this one slept, the clock read after the sleep, and the interference
    met by the claim of the round. *)
Record tick : Type := mkTick {
  world : Z * double -> Z * double;
  now : double;
  contention : schedule
}.

Definition interfere (w : Z * double -> Z * double) (p : pacer) : pacer :=
  let '(b, t) := w (budget p, tax_rate p) in
  mkPacer b t (delays p).

(** [(size_t)((end - start) * 1000)] *)
Definition elapsed_ms (start end_ : double) : Z :=
  to_size_t (mul (sub end_ start) d1000_0).

(** How a call of [pace_for_alloc] left. *)
Inductive pace_exit : Type :=
| FastPath
| Claimed (ms : Z)
| TimedOut (ms : Z).

(** The [while (true)] of [pace_for_alloc]; [None] when the oracle has no
    round left. *)
Fixpoint pace_loop (ticks : list tick) (words : Z) (max_wait_ms : Z)
         (start : double) (p : pacer) : option (pace_exit * pacer) :=
  match ticks with
  | [] => None
  | t :: ticks' =>
      let p := interfere (world t) p in
      let end_ := now t in
      let ms := elapsed_ms start end_ in
      if ms >? max_wait_ms then
        let p := delays_add ms p in
        let '(_, p) := claim_for_alloc (contention t) words true p in
        Some (TimedOut ms, p)
      else
        let '(ok, p) := claim_for_alloc (contention t) words false p in
        if ok then Some (Claimed ms, delays_add ms p)
        else pace_loop ticks' words max_wait_ms start p
  end.

Definition pace_for_alloc (env : schedule) (start : double)
           (ticks : list tick) (words : Z) (p : pacer)
  : option (pace_exit * pacer) :=
  let '(ok, p) := claim_for_alloc env words false p in
  if ok then Some (FastPath, p)
  else
    let max_wait_ms := ShenandoahPacingMaxDelay fl in
    pace_loop ticks words max_wait_ms start p.

End Pacer.

(** ** Rounding, for the proofs *)

(** The record [mrs] of [SpecFloat] holds the quotient [a / b], its round
    bit tells whether the remainder reaches the half of [b], its sticky bit
    whether it lies strictly between 0 and the half or between the half and
    [b]. *)
Definition located (mrs : shr_record) (a b : Z) : Prop :=
  0 < b /\ 0 <= a /\
  shr_m mrs = a / b /\
  shr_r mrs = (b <=? 2 * (a mod b)) /\
  shr_s mrs = negb ((a mod b =? 0) || (2 * (a mod b) =? b)).

(** [a / b] rounded to the nearest integer, ties to even. *)
Definition rne (a b : Z) : Z :=
  let q := a / b in
  let r := a mod b in
  if 2 * r <? b then q
  else if 2 * r =? b then (if Z.even q then q else q + 1)
  else q + 1.

(** A mantissa and an exponent packed into a double, or the overflow. *)
Definition pack (s : bool) (m e : Z) : double :=
  if e <=? 971 then S754_finite s (Z.to_pos m) e else S754_infinity s.

(** A rounded mantissa in [2^52, 2^53] renormalised and packed. *)
Definition rounded (mr e : Z) : double :=
  if mr <? 2 ^ 53 then pack false mr e else pack false (2 ^ 52) (e + 1).

(** A positive normal double whose exponent lies in [lo, hi]. *)
Definition pos_normal (lo hi : Z) (d : double) : Prop :=
  exists m e, d = S754_finite false m e /\
              2 ^ 52 <= Zpos m < 2 ^ 53 /\ lo <= e <= hi.

(** ** The value of a double *)

(** [2 ^ e] for any integer [e]. *)
Definition Q2 (e : Z) : Q := Qpower (2 # 1) e.

(** The rational a finite double stands for; 0 for the others. *)
Definition value (d : double) : Q :=
  match d with
  | S754_finite s m e =>
      ((if s then - (1) else 1) * inject_Z (Zpos m) * Q2 e)%Q
  | _ => 0%Q
  end.

(** [v] lies between [lo * x] and [hi * x]. *)
Definition within (lo hi v x : Q) : Prop := (lo * x <= v /\ v <= hi * x)%Q.

(** One rounding to 53 places moves a positive value by at most the factor
    [1 - 2^-53] down or [1 + 2^-53] up. *)
Definition ulp_lo : Q := 1 - (1 # 9007199254740992).
Definition ulp_hi : Q := 1 + (1 # 9007199254740992).

(** The roundings of a whole tax computation stay within [2^-50]. *)
Definition tax_lo : Q := 1 - (1 # 1125899906842624).
Definition tax_hi : Q := 1 + (1 # 1125899906842624).

(** A double tracks [x]: it is a positive normal number with exponent in
    [el, eh] and value in [lo * x, hi * x]. *)
Definition tracks (lo hi : Q) (el eh : Z) (d : double) (x : Q) : Prop :=
  pos_normal el eh d /\ (0 < x)%Q /\ within lo hi (value d) x.

(** The tax of the mark phase as the spec writes it, in exact arithmetic. *)
Definition mark_tax_exact (used taxable : Z) : Q :=
  (Qmax 1 (3 * inject_Z used / inject_Z taxable) * (11 # 10))%Q.

(** ** What the statements speak of *)

(** The platform of the examples: cvttsd2si answers [0x8000000000000000]. *)
Definition x86_64 : Platform := {| indefinite := fun _ => LP64.min_intptr |}.

Section Environment.

Context `{Platform}.
Variable fl : flags.

(** The allowance and the taxable space that the three cycle phases
    compute from the free space. *)
Definition non_taxable_of (h : heap) : Z :=
  LP64.to_size_t (available h * ShenandoahPacingCycleSlack fl) / 100.
Definition taxable_of (h : heap) : Z :=
  LP64.to_size_t (available h - non_taxable_of h).

(** A clock that advances by at most [q] ms from one reading to the
    next, the first one taken [prev] ms after the start. *)
Fixpoint steady (q prev : Z) (start : double) (ticks : list tick) : Prop :=
  match ticks with
  | [] => True
  | t :: ticks' =>
      elapsed_ms start (now t) <= prev + q /\
      steady q (elapsed_ms start (now t)) start ticks'
  end.

(** Some reading of the clock lies beyond the maximal delay. *)
Definition deadline_passes (start : double) (ticks : list tick) : Prop :=
  Exists (fun t => elapsed_ms start (now t) > ShenandoahPacingMaxDelay fl)
         ticks.

(** The budget of the spec: the allowance times the tax rate, truncated
    to a byte count, in heap words. *)
Definition allowance_budget (allowance : Z) (rate : double) : Z :=
  Z.shiftr (to_size_t (mul (of_Z allowance) rate)) LP64.LogHeapWordSize.

(** The replace of the spec: a plain store of the budget and the rate. *)
Definition restart_store (non_taxable_bytes : Z) (rate : double)
           (p : pacer) : pacer :=
  mkPacer (initial_budget non_taxable_bytes rate) rate (delays p).

(** A run of claims, one after the other, each against its own schedule;
    the results in order and the state left. *)
Fixpoint claim_all (calls : list (schedule * Z * bool)) (p : pacer)
  : list bool * pacer :=
  match calls with
  | [] => ([], p)
  | (env, words, force) :: calls' =>
      let '(ok, p1) := claim_for_alloc env words force p in
      let '(oks, p2) := claim_all calls' p1 in
      (ok :: oks, p2)
  end.

End Environment.


(** ** The report *)

(** [int] is 32 bits wide; [1 << n] is taken for [0 <= n < 31]. *)
Definition to_int (z : Z) : Z :=
  let u := z mod 2 ^ 32 in
  if u <? 2 ^ 31 then u else u - 2 ^ 32.

Definition shl1 (n : Z) : Z := to_int (Z.shiftl 1 n).

(** The bounds that [print_on] prints for level [c]:
    [(c == 0) ? 0 : 1 << (c - 1)] and [1 << c]. *)
Definition level_from (c : Z) : Z := if c =? 0 then 0 else shl1 (c - 1).
Definition level_to (c : Z) : Z := shl1 c.

(** The table of [print_on], one row per round of
    [for (int c = min_level; c <= max_level; c++)]: the two bounds and
    [_delays.level(c)]. The levels come from the histogram class, which is
    not in the source tree; [n] bounds the rounds. *)
Fixpoint rows_from (n : nat) (c max_level : Z) (h : histogram)
  : list (Z * Z * Z) :=
  match n with
  | O => []
  | S n' =>
      if c <=? max_level
      then (level_from c, level_to c, h c) :: rows_from n' (c + 1) max_level h
      else []
  end.

Definition print_on (min_level max_level : Z) (h : histogram)
  : list (Z * Z * Z) :=
  rows_from (Z.to_nat (max_level - min_level + 1)) min_level max_level h.

(** ** Accounting *)

Section Accounting.

Context `{Platform}.

(** What a run of claims at tax rate [rate] has taken from the budget: the
    costs of the claims that succeeded. *)
Fixpoint spent (rate : double) (calls : list (schedule * Z * bool))
         (oks : list bool) : Z :=
  match calls, oks with
  | (_, words, _) :: calls', ok :: oks' =>
      (if ok then claim_tax words rate else 0) + spent rate calls' oks'
  | _, _ => 0
  end.

(** Nobody else touches the budget during the run. *)
Definition undisturbed (calls : list (schedule * Z * bool)) : Prop :=
  Forall (fun c => fst (fst c) = []) calls.

(** Nobody else touches the pacer during the rounds. *)
Definition quiet_world (ticks : list tick) : Prop :=
  Forall (fun t => (forall s, world t s = s) /\ contention t = []) ticks.

End Accounting.

(** ** Inputs of the examples *)

Module Examples.

Definition MB : Z := 1024 * 1024.

(** Pacing at 10 percent cycle slack, 1 percent idle slack, 10 ms. *)
Definition fl : flags := mkFlags 10 1 10.

(** 90 MB used and 10 MB free of a heap of 1000 MB. *)
Definition hp : heap := mkHeap (90 * MB) (10 * MB) (45 * MB) (1000 * MB).

(** 500 words of budget at rate 1.0. *)
Definition p0 : pacer := mkPacer 500 d1_0 histogram_empty.

(** No budget left. *)
Definition broke : pacer := mkPacer 0 d1_0 histogram_empty.

(** A clock read 1/128 s and 1/64 s after the start, nobody else around. *)
Definition quiet (s : Z * double) : Z * double := s.
Definition ticks : list tick :=
  [ mkTick quiet (div (of_Z 1) (of_Z 128)) [];
    mkTick quiet (div (of_Z 1) (of_Z 64)) [] ].

End Examples.

Module MoreExamples.

(** A heap with nothing free. *)
Definition full : heap :=
  mkHeap (90 * Examples.MB) 0 (45 * Examples.MB) (1000 * Examples.MB).

(** 800 words of budget at rate 1.0. *)
Definition p800 : pacer := mkPacer 800 d1_0 histogram_empty.

(** Eight undisturbed claims of 100 words, then one of a single word. *)
Definition nine : list (schedule * Z * bool) :=
  repeat ([], 100, false) 8 ++ [([], 1, false)].

(** A third reading of the clock, a second after the start. *)
Definition late : tick := mkTick Examples.quiet (of_Z 1) [].

(** A histogram that has seen one delay of 15 ms. *)
Definition seen15 : histogram := histogram_add 15 histogram_empty.

End MoreExamples.

(** * IEEE 754 binary64: facts *)

Lemma digits2_size (p : positive) : digits2_pos p = Pos.size p.
Proof. induction p; simpl; congruence. Qed.

Lemma digits2_bounds (p : positive) :
  2 ^ (Zpos (digits2_pos p) - 1) <= Zpos p < 2 ^ Zpos (digits2_pos p).
Proof.
  rewrite digits2_size.
  pose proof (Pos.size_gt p) as Hgt. pose proof (Pos.size_le p) as Hle.
  assert (E : Zpos (2 ^ Pos.size p) = 2 ^ Zpos (Pos.size p)) by (rewrite Pos2Z.inj_pow; reflexivity).
  split.
  - assert (2 ^ Zpos (Pos.size p) = 2 * 2 ^ (Zpos (Pos.size p) - 1)).
    { rewrite <- Z.pow_succ_r by lia. f_equal. lia. }
    lia.
  - lia.
Qed.

Lemma digits2_unique (p : positive) (d : Z) :
  2 ^ (d - 1) <= Zpos p < 2 ^ d -> Zpos (digits2_pos p) = d.
Proof.
  intros [Hlo Hhi]. pose proof (digits2_bounds p) as [Hlo' Hhi'].
  set (d' := Zpos (digits2_pos p)) in *.
  assert (0 < d).
  { destruct (Z.lt_trichotomy d 0) as [Hn | [Hz | Hp]]; auto.
    - rewrite (Z.pow_neg_r 2 d Hn) in Hhi. lia.
    - subst d. simpl in Hhi. lia. }
  destruct (Z.lt_trichotomy d' d) as [Hlt | [Heq | Hgt]]; auto.
  - assert (2 ^ d' <= 2 ^ (d - 1)) by (apply Z.pow_le_mono_r; lia). lia.
  - assert (2 ^ d <= 2 ^ (d' - 1)) by (apply Z.pow_le_mono_r; lia). lia.
Qed.

Lemma halve_quotient (a b : Z) :
  0 < b -> 0 <= a ->
  a / b = 2 * (a / (2 * b)) + (if b <=? a mod (2 * b) then 1 else 0) /\
  a mod (2 * b) = a mod b + (if b <=? a mod (2 * b) then b else 0).
Proof.
  intros Hb Ha.
  pose proof (Z.div_mod a b ltac:(lia)) as Hdm.
  pose proof (Z.mod_pos_bound a b Hb) as Hrem.
  pose proof (Z.div_mod a (2 * b) ltac:(lia)) as Hdm2.
  pose proof (Z.mod_pos_bound a (2 * b) ltac:(lia)) as Hrem2.
  destruct (Z.leb_spec b (a mod (2 * b))).
  - assert (a / b = 2 * (a / (2 * b)) + 1)
      by (symmetry; apply (Z.div_unique_pos a b _ (a mod (2 * b) - b)); lia).
    lia.
  - assert (a / b = 2 * (a / (2 * b)))
      by (symmetry; apply (Z.div_unique_pos a b _ (a mod (2 * b))); lia).
    lia.
Qed.

Lemma shr_1_located (mrs : shr_record) (a b : Z) :
  located mrs a b -> located (shr_1 mrs) a (2 * b).
Proof.
  destruct mrs as [m r s]. unfold located. cbn [shr_m shr_r shr_s].
  intros (Hb & Ha & Hm & Hr & Hs).
  destruct (halve_quotient a b Hb Ha) as [Hq Hrm2].
  pose proof (Z.mod_pos_bound a b Hb) as Hrem.
  pose proof (Z.mod_pos_bound a (2 * b) ltac:(lia)) as Hrem2.
  assert (Hq0 : 0 <= a / b) by (apply Z.div_pos; lia).
  set (q := a / b) in *. set (rm := a mod b) in *.
  set (q2 := a / (2 * b)) in *. set (rm2 := a mod (2 * b)) in *.
  clearbody q rm q2 rm2.
  assert (Hgoal : forall (m' : Z) (r' : bool), m = 2 * m' + (if r' then 1 else 0) ->
     0 < 2 * b /\ 0 <= a /\ m' = q2 /\
     r' = (2 * b <=? 2 * rm2) /\
     r || s = negb ((rm2 =? 0) || (2 * rm2 =? 2 * b))).
  { intros m' r' Hm'. subst r s.
    destruct (b <=? rm2) eqn:E; destruct r'; repeat split; lia. }
  destruct m as [|[p|p|]|p]; cbn [shr_1 shr_m shr_r shr_s].
  - apply (Hgoal 0 false). reflexivity.
  - apply (Hgoal (Zpos p) true). lia.
  - apply (Hgoal (Zpos p) false). lia.
  - apply (Hgoal 0 true). reflexivity.
  - lia.
Qed.

Lemma iter_pos_located (n : positive) (mrs : shr_record) (a b : Z) :
  located mrs a b -> located (iter_pos shr_1 n mrs) a (2 ^ Zpos n * b).
Proof.
  revert mrs b. induction n as [n IH | n IH |]; intros mrs b Hl; cbn [iter_pos].
  - replace (2 ^ Zpos n~1 * b) with (2 ^ Zpos n * (2 ^ Zpos n * (2 * b))).
    + apply IH, IH, shr_1_located, Hl.
    + replace (Zpos n~1) with (Zpos n + Zpos n + 1) by lia.
      rewrite !Z.pow_add_r by lia. change (2 ^ 1) with 2. ring.
  - replace (2 ^ Zpos n~0 * b) with (2 ^ Zpos n * (2 ^ Zpos n * b)).
    + apply IH, IH, Hl.
    + replace (Zpos n~0) with (Zpos n + Zpos n) by lia.
      rewrite Z.pow_add_r by lia. ring.
  - apply shr_1_located, Hl.
Qed.

Lemma shr_located (mrs : shr_record) (e n a b : Z) :
  located mrs a b -> 0 <= n ->
  located (fst (shr mrs e n)) a (2 ^ n * b) /\ snd (shr mrs e n) = e + n.
Proof.
  intros Hl Hn. destruct n as [|n|n]; cbn [shr fst snd].
  - rewrite Z.mul_1_l. split; [assumption | lia].
  - split; [now apply iter_pos_located | reflexivity].
  - lia.
Qed.

Lemma located_exact (m : Z) :
  0 <= m -> located (shr_record_of_loc m loc_Exact) m 1.
Proof.
  intros Hm. unfold located. cbn [shr_record_of_loc shr_m shr_r shr_s].
  rewrite Z.div_1_r, Z.mod_1_r. repeat split; lia.
Qed.

Lemma rne_located (mrs : shr_record) (a b : Z) :
  located mrs a b ->
  round_nearest_even (shr_m mrs) (loc_of_shr_record mrs) = rne a b.
Proof.
  destruct mrs as [m r s]. unfold located, rne. cbn [shr_m shr_r shr_s].
  intros (Hb & Ha & -> & -> & ->).
  pose proof (Z.mod_pos_bound a b Hb) as Hrem.
  set (q := a / b). set (rm := a mod b) in *. clearbody q rm.
  destruct (Z.ltb_spec (2 * rm) b), (Z.eqb_spec (2 * rm) b), (Z.leb_spec b (2 * rm)), (Z.eqb_spec rm 0);
    try lia; reflexivity.
Qed.

Lemma rne_bounds (a b : Z) : 0 < b -> a / b <= rne a b <= a / b + 1.
Proof.
  intros Hb. unfold rne.
  destruct (2 * (a mod b) <? b); [lia|].
  destruct (2 * (a mod b) =? b); [|lia].
  destruct (Z.even (a / b)); lia.
Qed.

Lemma rne_half (a b : Z) : 0 < b -> 2 * Z.abs (rne a b * b - a) <= b.
Proof.
  intros Hb. unfold rne.
  pose proof (Z.div_mod a b ltac:(lia)) as Hdm.
  pose proof (Z.mod_pos_bound a b Hb) as Hrem.
  set (q := a / b) in *. set (rm := a mod b) in *. clearbody q rm.
  destruct (Z.ltb_spec (2 * rm) b); [nia|].
  destruct (Z.eqb_spec (2 * rm) b); [destruct (Z.even q); nia | nia].
Qed.

Lemma fexp_eq (x : Z) : fexp prec emax x = Z.max (x - 53) (-1074).
Proof. reflexivity. Qed.

Lemma pow2_pos (n : Z) : 0 <= n -> 0 < 2 ^ n.
Proof. intros. apply Z.pow_pos_nonneg; lia. Qed.

Lemma div_pow2_bounds (m k n : Z) :
  0 <= n -> 0 <= k ->
  2 ^ (k + n) <= m < 2 ^ (k + 1 + n) ->
  2 ^ k <= m / 2 ^ n < 2 ^ (k + 1).
Proof.
  intros Hn Hk [Hlo Hhi].
  pose proof (pow2_pos n Hn) as Hp.
  rewrite Z.pow_add_r in Hlo, Hhi by lia.
  split.
  - apply Z.div_le_lower_bound; lia.
  - apply Z.div_lt_upper_bound; lia.
Qed.

Lemma round_aux_shifted (s : bool) (mx : positive) (ex : Z) (lx : location)
      (a b n : Z) :
  located (shr_record_of_loc (Zpos mx) lx) a b ->
  Zpos (digits2_pos mx) = n + 53 -> 0 <= n ->
  -1074 <= ex + n ->
  let mr := rne a (2 ^ n * b) in
  2 ^ 52 <= mr <= 2 ^ 53 /\
  binary_round_aux prec emax s (Zpos mx) ex lx =
    if mr <? 2 ^ 53 then pack s mr (ex + n) else pack s (2 ^ 52) (ex + n + 1).
Proof.
  intros Hl Hd Hn He mr.
  assert (Hb : 0 < b) by apply Hl.
  assert (Hm : Zpos mx = a / b).
  { destruct Hl as (_ & _ & Hm & _). destruct lx as [|[]]; exact Hm. }
  pose proof (pow2_pos n Hn) as Hpn.
  assert (Hq : 2 ^ 52 <= a / (2 ^ n * b) < 2 ^ 53).
  { rewrite Z.mul_comm, <- Z.div_div by lia. rewrite <- Hm.
    apply (div_pow2_bounds (Zpos mx) 52 n Hn); [lia|].
    pose proof (digits2_bounds mx) as Hb2. rewrite Hd in Hb2.
    replace (n + 53 - 1) with (52 + n) in Hb2 by lia.
    replace (n + 53) with (52 + 1 + n) in Hb2 by lia.
    exact Hb2. }
  assert (Hmr : 2 ^ 52 <= mr <= 2 ^ 53).
  { pose proof (rne_bounds a (2 ^ n * b) ltac:(lia)). unfold mr. lia. }
  split; [exact Hmr|].
  unfold binary_round_aux, shr_fexp.
  cbn [Zdigits2]. rewrite fexp_eq, Hd.
  replace (Z.max (n + 53 + ex - 53) (-1074) - ex) with n by lia.
  destruct (shr_located _ ex n a b Hl Hn) as [Hl1 He1].
  destruct (shr (shr_record_of_loc (Zpos mx) lx) ex n) as [mrs' e'].
  cbn [fst snd] in Hl1, He1. subst e'.
  rewrite (rne_located _ _ _ Hl1). fold mr.
  destruct (Z.ltb_spec mr (2 ^ 53)) as [Hlt | Hge].
  - destruct mr as [|pm|pm] eqn:Emr; try lia.
    cbn [Zdigits2]. rewrite (digits2_unique pm 53) by (change (53 - 1) with 52; lia).
    rewrite fexp_eq.
    replace (Z.max (53 + (ex + n) - 53) (-1074) - (ex + n)) with 0 by lia.
    cbn [shr shr_record_of_loc shr_m]. unfold pack. reflexivity.
  - assert (Emr : mr = 2 ^ 53) by lia. rewrite Emr.
    change (2 ^ 53) with (Zpos (2 ^ 53)). cbn [Zdigits2].
    rewrite (digits2_unique (2 ^ 53) 54) by (vm_compute; split; congruence).
    rewrite fexp_eq.
    replace (Z.max (54 + (ex + n) - 53) (-1074) - (ex + n)) with 1 by lia.
    unfold pack. cbn [shr].
    reflexivity.
Qed.

Lemma rounded_normal (mr e lo hi : Z) :
  2 ^ 52 <= mr <= 2 ^ 53 -> lo <= e -> e + 1 <= hi -> hi <= 971 ->
  pos_normal lo hi (rounded mr e).
Proof.
  intros Hmr Hlo Hhi Hmax. unfold rounded, pack.
  destruct (Z.ltb_spec mr (2 ^ 53)).
  - destruct (Z.leb_spec e 971); [|lia].
    exists (Z.to_pos mr), e. rewrite Z2Pos.id by lia. repeat split; lia.
  - destruct (Z.leb_spec (e + 1) 971); [|lia].
    exists (Z.to_pos (2 ^ 52)), (e + 1). rewrite Z2Pos.id by lia. repeat split; lia.
Qed.

Lemma rne_exact (a : Z) : rne a 1 = a.
Proof. unfold rne. rewrite Z.mod_1_r, Z.div_1_r. reflexivity. Qed.

Lemma rne_divides (q b : Z) : 0 < b -> rne (q * b) b = q.
Proof.
  intros Hb. unfold rne. rewrite Z.mod_mul, Z.div_mul by lia.
  destruct (Z.ltb_spec (2 * 0) b); [reflexivity | lia].
Qed.

Lemma product_digits (m1 m2 : positive) :
  2 ^ 52 <= Zpos m1 < 2 ^ 53 -> 2 ^ 52 <= Zpos m2 < 2 ^ 53 ->
  exists n, (n = 52 \/ n = 53) /\
            2 ^ (52 + n) <= Zpos (m1 * m2) < 2 ^ (53 + n) /\
            Zpos (digits2_pos (m1 * m2)) = n + 53.
Proof.
  intros H1 H2. rewrite Pos2Z.inj_mul.
  assert (Hlo : 2 ^ 104 <= Zpos m1 * Zpos m2).
  { change (2 ^ 104) with (2 ^ 52 * 2 ^ 52). apply Z.mul_le_mono_nonneg; lia. }
  assert (Hhi : Zpos m1 * Zpos m2 < 2 ^ 106).
  { change (2 ^ 106) with (2 ^ 53 * 2 ^ 53). apply Z.mul_lt_mono_nonneg; lia. }
  destruct (Z.ltb_spec (Zpos m1 * Zpos m2) (2 ^ 105)).
  - exists 52. split; [now left|]. split; [split; assumption|].
    apply digits2_unique. rewrite Pos2Z.inj_mul. split; assumption.
  - exists 53. split; [now right|]. split; [split; assumption|].
    apply digits2_unique. rewrite Pos2Z.inj_mul. split; assumption.
Qed.

Lemma mul_normal_spec (m1 m2 : positive) (e1 e2 : Z) :
  2 ^ 52 <= Zpos m1 < 2 ^ 53 -> 2 ^ 52 <= Zpos m2 < 2 ^ 53 ->
  -1074 <= e1 + e2 + 52 ->
  exists n, (n = 52 \/ n = 53) /\
    2 ^ (52 + n) <= Zpos m1 * Zpos m2 < 2 ^ (53 + n) /\
    2 ^ 52 <= rne (Zpos m1 * Zpos m2) (2 ^ n) <= 2 ^ 53 /\
    mul (S754_finite false m1 e1) (S754_finite false m2 e2) =
    rounded (rne (Zpos m1 * Zpos m2) (2 ^ n)) (e1 + e2 + n).
Proof.
  intros H1 H2 He.
  destruct (product_digits m1 m2 H1 H2) as (n & Hn & Hb & Hd).
  exists n. split; [exact Hn|]. rewrite Pos2Z.inj_mul in Hb. split; [exact Hb|].
  pose proof (round_aux_shifted false (m1 * m2) (e1 + e2) loc_Exact
                (Zpos (m1 * m2)) 1 n (located_exact (Zpos (m1 * m2)) ltac:(lia)) Hd
                ltac:(lia) ltac:(lia)) as [Hmr Heq].
  cbv zeta in Hmr, Heq. rewrite Z.mul_1_r, Pos2Z.inj_mul in Hmr, Heq.
  split; [exact Hmr|]. exact Heq.
Qed.

Lemma iter_xO (p d : positive) : Zpos (Pos.iter xO p d) = Zpos p * 2 ^ Zpos d.
Proof.
  induction d as [|d IH] using Pos.peano_ind.
  - simpl. lia.
  - rewrite Pos.iter_succ, Pos2Z.inj_xO, IH, Pos2Z.inj_succ, Z.pow_succ_r by lia. ring.
Qed.

Lemma of_Z_exact (n : Z) :
  0 < n < 2 ^ 53 ->
  exists m e, of_Z n = S754_finite false m e /\
              2 ^ 52 <= Zpos m < 2 ^ 53 /\ -52 <= e <= 0 /\
              Zpos m = n * 2 ^ (- e).
Proof.
  intros Hn. destruct n as [|p|p]; try lia.
  unfold of_Z, binary_normalize, binary_round.
  rewrite fexp_eq.
  pose proof (digits2_bounds p) as Hd.
  set (d := Zpos (digits2_pos p)) in *.
  assert (Hd53 : 1 <= d <= 53).
  { split; [unfold d; lia|].
    destruct (Z.leb_spec d 53); [assumption|].
    assert (2 ^ 53 <= 2 ^ (d - 1)) by (apply Z.pow_le_mono_r; lia). lia. }
  replace (Z.max (d + 0 - 53) (-1074)) with (d - 53) by lia.
  unfold shl_align. replace (d - 53 - 0) with (d - 53) by lia.
  destruct (d - 53) as [|k|k] eqn:Ek; try lia.
  - (* d = 53: the mantissa is already full *)
    assert (Hp : Zpos (digits2_pos p) = 0 + 53) by (fold d; lia).
    destruct (round_aux_shifted false p 0 loc_Exact (Zpos p) 1 0
                (located_exact (Zpos p) ltac:(lia)) Hp ltac:(lia) ltac:(lia))
      as [Hmr Heq].
    cbv zeta in Hmr, Heq. change (2 ^ 0 * 1) with 1 in Hmr, Heq.
    rewrite rne_exact in Hmr, Heq. rewrite Heq.
    destruct (Z.ltb_spec (Zpos p) (2 ^ 53)); [|lia].
    exists p, 0. repeat split; try lia.
  - (* d < 53: the mantissa is shifted left *)
    assert (Hk : Zpos k = 53 - d) by lia.
    assert (Hmz : Zpos (Pos.iter xO p k) = Zpos p * 2 ^ (53 - d))
      by (rewrite iter_xO, Hk; reflexivity).
    assert (Hpow : 2 ^ (d - 1) * 2 ^ (53 - d) = 2 ^ 52 /\ 2 ^ d * 2 ^ (53 - d) = 2 ^ 53).
    { rewrite <- !Z.pow_add_r by lia. split; f_equal; lia. }
    pose proof (pow2_pos (53 - d) ltac:(lia)) as Hpp.
    assert (Hrange : 2 ^ 52 <= Zpos (Pos.iter xO p k) < 2 ^ 53).
    { rewrite Hmz. destruct Hpow as [<- <-]. split.
      - apply Z.mul_le_mono_nonneg_r; lia.
      - apply Z.mul_lt_mono_pos_r; lia. }
    assert (Hp : Zpos (digits2_pos (Pos.iter xO p k)) = 0 + 53)
      by (apply digits2_unique; exact Hrange).
    destruct (round_aux_shifted false (Pos.iter xO p k) (Zneg k) loc_Exact
                (Zpos (Pos.iter xO p k)) 1 0
                (located_exact (Zpos (Pos.iter xO p k)) ltac:(lia)) Hp
                ltac:(lia) ltac:(lia))
      as [Hmr Heq].
    cbv zeta in Hmr, Heq. change (2 ^ 0 * 1) with 1 in Hmr, Heq.
    rewrite rne_exact in Hmr, Heq. rewrite Heq.
    destruct (Z.ltb_spec (Zpos (Pos.iter xO p k)) (2 ^ 53)); [|lia].
    unfold pack. rewrite Z.add_0_r. destruct (Z.leb_spec (Zneg k) 971); [|lia].
    exists (Pos.iter xO p k), (Zneg k). rewrite Pos2Z.id.
    repeat split; try lia.
    rewrite Hmz. f_equal. f_equal. lia.
Qed.

Lemma of_Z_rounds (n : Z) :
  2 ^ 53 <= n ->
  exists k, 0 <= k /\ 2 ^ (52 + k) <= n < 2 ^ (53 + k) /\
            2 ^ 52 <= rne n (2 ^ k) <= 2 ^ 53 /\
            of_Z n = rounded (rne n (2 ^ k)) k.
Proof.
  intros Hn. destruct n as [|p|p]; try lia.
  unfold of_Z, binary_normalize, binary_round.
  rewrite fexp_eq.
  pose proof (digits2_bounds p) as Hd.
  set (d := Zpos (digits2_pos p)) in *.
  assert (Hd53 : 54 <= d).
  { destruct (Z.leb_spec 54 d); [assumption|].
    assert (2 ^ d <= 2 ^ 53) by (apply Z.pow_le_mono_r; lia). lia. }
  replace (Z.max (d + 0 - 53) (-1074)) with (d - 53) by lia.
  unfold shl_align. replace (d - 53 - 0) with (d - 53) by lia.
  destruct (d - 53) as [|k|k] eqn:Ek; try lia.
  assert (Hp : Zpos (digits2_pos p) = Zpos k + 53) by (fold d; lia).
  destruct (round_aux_shifted false p 0 loc_Exact (Zpos p) 1 (Zpos k)
              (located_exact (Zpos p) ltac:(lia)) Hp ltac:(lia) ltac:(lia))
    as [Hmr Heq].
  cbv zeta in Hmr, Heq. rewrite Z.mul_1_r in Hmr, Heq.
  exists (Zpos k). split; [lia|]. split.
  - replace (52 + Zpos k) with (d - 1) by lia.
    replace (53 + Zpos k) with d by lia. exact Hd.
  - split; [exact Hmr | exact Heq].
Qed.

Lemma new_location_located (q r b : Z) :
  0 <= q -> 0 <= r < b ->
  located (shr_record_of_loc q (new_location b r)) (b * q + r) b.
Proof.
  intros Hq Hr. unfold located.
  assert (Hdiv : (b * q + r) / b = q)
    by (symmetry; apply (Z.div_unique_pos _ b q r); lia).
  assert (Hmod : (b * q + r) mod b = r)
    by (symmetry; apply (Z.mod_unique_pos _ b q r); lia).
  rewrite Hdiv, Hmod.
  assert (Hgoal : forall l, 
     (l = loc_Exact /\ r = 0 \/ l = loc_Inexact Lt /\ 0 < 2 * r < b \/
      l = loc_Inexact Eq /\ 2 * r = b \/ l = loc_Inexact Gt /\ b < 2 * r) ->
     0 < b /\ 0 <= b * q + r /\ shr_m (shr_record_of_loc q l) = q /\
     shr_r (shr_record_of_loc q l) = (b <=? 2 * r) /\
     shr_s (shr_record_of_loc q l) = negb ((r =? 0) || (2 * r =? b))).
  { intros l [[-> H0] | [[-> H0] | [[-> H0] | [-> H0]]]];
      cbn [shr_record_of_loc shr_m shr_r shr_s]; repeat split; try lia; nia. }
  apply Hgoal. unfold new_location, new_location_even, new_location_odd.
  destruct (Z.even b) eqn:Eb.
  - destruct (Z.eqb_spec r 0); [left; split; [reflexivity | assumption]|].
    right. destruct (Z.compare_spec (2 * r) b); [right; left | left | right; right]; split; try reflexivity; lia.
  - destruct (Z.eqb_spec r 0); [left; split; [reflexivity | assumption]|].
    right.
    assert (Hodd : b <> 2 * r).
    { intros ->. rewrite Z.even_mul in Eb. discriminate. }
    destruct (Z.compare_spec (2 * r + 1) b); [left | left | right; right]; split; try reflexivity; lia.
Qed.

Lemma div_normal_spec (m1 m2 : positive) (e1 e2 : Z) :
  2 ^ 52 <= Zpos m1 < 2 ^ 53 -> 2 ^ 52 <= Zpos m2 < 2 ^ 53 ->
  -1074 <= e1 - e2 - 53 ->
  exists n, (n = 0 \/ n = 1) /\
    2 ^ (52 + n) <= (Zpos m1 * 2 ^ 53) / Zpos m2 < 2 ^ (53 + n) /\
    2 ^ 52 <= rne (Zpos m1 * 2 ^ 53) (2 ^ n * Zpos m2) <= 2 ^ 53 /\
    div (S754_finite false m1 e1) (S754_finite false m2 e2) =
    rounded (rne (Zpos m1 * 2 ^ 53) (2 ^ n * Zpos m2)) (e1 - e2 - 53 + n).
Proof.
  intros H1 H2 He.
  unfold div, SFdiv, SFdiv_core_binary. cbn [Zdigits2 xorb].
  rewrite (digits2_unique m1 53), (digits2_unique m2 53) by exact H1 || exact H2.
  rewrite fexp_eq.
  replace (Z.min (Z.max (53 + e1 - (53 + e2) - 53) (-1074)) (e1 - e2))
    with (e1 - e2 - 53) by lia.
  replace (e1 - e2 - (e1 - e2 - 53)) with 53 by lia.
  rewrite Z.shiftl_mul_pow2 by lia.
  pose proof (Z.div_mod (Zpos m1 * 2 ^ 53) (Zpos m2) ltac:(lia)) as Hdm.
  pose proof (Z.mod_pos_bound (Zpos m1 * 2 ^ 53) (Zpos m2) ltac:(lia)) as Hrem.
  unfold Z.div, Z.modulo in Hdm, Hrem |- *.
  destruct (Z.div_eucl (Zpos m1 * 2 ^ 53) (Zpos m2)) as [q r].
  assert (Hq : 2 ^ 52 <= q < 2 ^ 54).
  { change (2 ^ 54) with (2 * 2 ^ 53). change (2 ^ 53) with (2 * 2 ^ 52) in *. nia. }
  destruct q as [|pq|pq]; try lia.
  pose proof (new_location_located (Zpos pq) r (Zpos m2) ltac:(lia) Hrem) as Hloc.
  rewrite <- Hdm in Hloc.
  assert (Hex : exists n, (n = 0 \/ n = 1) /\ 2 ^ (52 + n) <= Zpos pq < 2 ^ (53 + n)).
  { destruct (Z.ltb_spec (Zpos pq) (2 ^ 53)); [exists 0 | exists 1]; 
      (split; [tauto|]); simpl Z.add; lia. }
  destruct Hex as (n & Hn & Hpq).
  assert (Hd : Zpos (digits2_pos pq) = n + 53).
  { apply digits2_unique. replace (n + 53 - 1) with (52 + n) by lia.
    replace (n + 53) with (53 + n) by lia. exact Hpq. }
  destruct (round_aux_shifted false pq (e1 - e2 - 53) _ _ _ n Hloc Hd
              ltac:(lia) ltac:(lia)) as [Hmr Heq].
  cbv zeta in Hmr, Heq.
  exists n. repeat split; try tauto; lia.
Qed.

Lemma d1_0_eq : d1_0 = S754_finite false 4503599627370496 (-52).
Proof. reflexivity. Qed.

Lemma SFltb_finite (m1 m2 : positive) (e1 e2 : Z) :
  SFltb (S754_finite false m1 e1) (S754_finite false m2 e2) =
  match e1 ?= e2 with
  | Lt => true
  | Gt => false
  | Eq => match (m1 ?= m2)%positive with Lt => true | _ => false end
  end.
Proof.
  unfold SFltb, SFcompare, Pos.compare.
  destruct (e1 ?= e2); try reflexivity.
Qed.

Lemma MAX2_one_normal (x : double) (lo hi : Z) :
  pos_normal lo hi x -> pos_normal (-52) (Z.max (-52) hi) (MAX2_double d1_0 x).
Proof.
  intros (m & e & -> & Hm & He).
  rewrite d1_0_eq. unfold MAX2_double, gt. rewrite SFltb_finite.
  destruct (Z.compare_spec e (-52)) as [Heq | Hlt | Hgt].
  - destruct (Pos.compare_spec m 4503599627370496) as [Hc | Hc | Hc].
    + exists m, e. repeat split; lia.
    + apply Pos2Z.pos_lt_pos in Hc. lia.
    + exists m, e. repeat split; lia.
  - exists 4503599627370496%positive, (-52). repeat split; lia.
  - exists m, e. repeat split; lia.
Qed.

Lemma of_Z_normal (n : Z) :
  0 < n < 2 ^ 64 -> pos_normal (-52) 12 (of_Z n).
Proof.
  intros Hn. destruct (Z.ltb_spec n (2 ^ 53)) as [Hs | Hl].
  - destruct (of_Z_exact n ltac:(lia)) as (m & e & -> & Hm & He & _).
    exists m, e. repeat split; lia.
  - destruct (of_Z_rounds n Hl) as (k & Hk & Hb & Hmr & ->).
    assert (k < 12).
    { destruct (Z.ltb_spec k 12); [assumption|].
      assert (2 ^ 64 <= 2 ^ (52 + k)) by (apply Z.pow_le_mono_r; lia). lia. }
    apply rounded_normal; try lia.
Qed.

Lemma mul_pos_normal (x y : double) (l1 h1 l2 h2 : Z) :
  pos_normal l1 h1 x -> pos_normal l2 h2 y ->
  -1074 <= l1 + l2 + 52 -> h1 + h2 + 54 <= 971 ->
  pos_normal (l1 + l2 + 52) (h1 + h2 + 54) (mul x y).
Proof.
  intros (m1 & e1 & -> & Hm1 & He1) (m2 & e2 & -> & Hm2 & He2) Hlo Hhi.
  destruct (mul_normal_spec m1 m2 e1 e2 Hm1 Hm2 ltac:(lia))
    as (n & Hn & _ & Hmr & ->).
  apply rounded_normal; try lia.
Qed.

Lemma div_pos_normal (x y : double) (l1 h1 l2 h2 : Z) :
  pos_normal l1 h1 x -> pos_normal l2 h2 y ->
  -1074 <= l1 - h2 - 53 -> h1 - l2 - 51 <= 971 ->
  pos_normal (l1 - h2 - 53) (h1 - l2 - 51) (div x y).
Proof.
  intros (m1 & e1 & -> & Hm1 & He1) (m2 & e2 & -> & Hm2 & He2) Hlo Hhi.
  destruct (div_normal_spec m1 m2 e1 e2 Hm1 Hm2 ltac:(lia))
    as (n & Hn & _ & Hmr & ->).
  apply rounded_normal; try lia.
Qed.

Lemma share_normal (k : Z) : 1 <= k <= 3 -> pos_normal (-52) (-51) (of_Z k).
Proof.
  intros Hk. assert (k = 1 \/ k = 2 \/ k = 3) as [-> | [-> | ->]] by lia.
  - exists 4503599627370496%positive, (-52). repeat split; lia.
  - exists 4503599627370496%positive, (-51). repeat split; lia.
  - exists 6755399441055744%positive, (-51). repeat split; lia.
Qed.

Lemma SFleb_finite (m1 m2 : positive) (e1 e2 : Z) :
  SFleb (S754_finite false m1 e1) (S754_finite false m2 e2) =
  match e1 ?= e2 with
  | Lt => true
  | Gt => false
  | Eq => match (m1 ?= m2)%positive with Gt => false | _ => true end
  end.
Proof.
  unfold SFleb, SFcompare, Pos.compare.
  destruct (e1 ?= e2); reflexivity.
Qed.

(** Multiplying a double that is at least 1 by the surcharge [1.1] gives a
    double that is at least [1.1]. *)
Lemma mul_surcharge_ge (m : positive) (e : Z) :
  2 ^ 52 <= Zpos m < 2 ^ 53 -> -52 <= e ->
  ge (mul (S754_finite false m e) d1_1) d1_1 = true.
Proof.
  intros Hm He. unfold d1_1.
  assert (Hc : 2 ^ 52 <= 4953959590107546 < 2 ^ 53)
    by (split; [discriminate | reflexivity]).
  destruct (mul_normal_spec m 4953959590107546 e (-52) Hm Hc ltac:(lia))
    as (n & Hn & Hb & Hmr & ->).
  set (mr := rne (Zpos m * 4953959590107546) (2 ^ n)) in *.
  assert (Hfloor : n = 52 -> 4953959590107546 <= mr).
  { intros ->.
    pose proof (rne_bounds (Zpos m * 4953959590107546) (2 ^ 52) ltac:(lia))
      as Hr.
    fold mr in Hr.
    assert (4953959590107546 <= Zpos m * 4953959590107546 / 2 ^ 52)
      by (apply Z.div_le_lower_bound; lia).
    lia. }
  clearbody mr.
  unfold rounded, pack, ge.
  destruct (mr <? 2 ^ 53).
  - destruct (e + -52 + n <=? 971); [|reflexivity].
    rewrite SFleb_finite.
    destruct (Z.compare_spec (-52) (e + -52 + n)) as [Heq | Hlt | Hgt];
      [|reflexivity|lia].
    destruct (Pos.compare_spec 4953959590107546 (Z.to_pos mr))
      as [_ | _ | Hlt]; try reflexivity.
    apply Pos2Z.pos_lt_pos in Hlt. rewrite Z2Pos.id in Hlt by lia.
    assert (Hn52 : n = 52) by lia. specialize (Hfloor Hn52). lia.
  - destruct (e + -52 + n + 1 <=? 971); [|reflexivity].
    rewrite SFleb_finite.
    destruct (Z.compare_spec (-52) (e + -52 + n + 1)) as [Heq | Hlt | Hgt];
      [lia|reflexivity|lia].
Qed.

Lemma surcharged_floor (x : double) :
  x = S754_zero false \/ (exists lo hi, pos_normal lo hi x) ->
  ge (mul (MAX2_double d1_0 x) d1_1) d1_1 = true.
Proof.
  intros [-> | (lo & hi & Hx)].
  - reflexivity.
  - destruct (MAX2_one_normal x lo hi Hx) as (m & e & -> & Hm & He).
    apply mul_surcharge_ge; lia.
Qed.

(** The tax of a cycle phase, [work] bytes to collect against [taxable]
    bytes free with [share] phases left, is at least [1.1]. *)
Lemma phase_tax_floor (work taxable share : Z) :
  0 <= work < 2 ^ 64 -> 0 < taxable < 2 ^ 64 -> 1 <= share <= 3 ->
  ge (mul (MAX2_double d1_0
             (mul (div (mul d1_0 (of_Z work)) (of_Z taxable)) (of_Z share)))
          d1_1) d1_1 = true.
Proof.
  intros Hw Ht Hs. apply surcharged_floor.
  pose proof (of_Z_normal taxable Ht) as Hnt.
  pose proof (share_normal share Hs) as Hns.
  destruct (Z.eq_dec work 0) as [-> | Hnz].
  - left. destruct Hnt as (mt & et & -> & _).
    destruct Hns as (ms & es & -> & _). reflexivity.
  - right.
    pose proof (of_Z_normal work ltac:(lia)) as Hnw.
    pose proof (mul_pos_normal _ _ _ _ _ _ (share_normal 1 ltac:(lia)) Hnw
                  ltac:(lia) ltac:(lia)) as H1.
    pose proof (div_pos_normal _ _ _ _ _ _ H1 Hnt ltac:(lia) ltac:(lia)) as H2.
    pose proof (mul_pos_normal _ _ _ _ _ _ H2 Hns ltac:(lia) ltac:(lia)) as H3.
    eexists _, _. exact H3.
Qed.

(** Multiplying by [1.0] changes nothing. *)
Lemma mul_one_r (m : positive) (e : Z) :
  2 ^ 52 <= Zpos m < 2 ^ 53 -> -1022 <= e <= 971 ->
  mul (S754_finite false m e) d1_0 = S754_finite false m e.
Proof.
  intros Hm He. rewrite d1_0_eq.
  assert (Hc : 2 ^ 52 <= 4503599627370496 < 2 ^ 53)
    by (split; [discriminate | reflexivity]).
  destruct (mul_normal_spec m 4503599627370496 e (-52) Hm Hc ltac:(lia))
    as (n & Hn & Hb & Hmr & ->).
  assert (Hn52 : n = 52).
  { destruct Hn as [-> | ->]; [reflexivity|].
    change (2 ^ (52 + 53)) with (2 ^ 53 * 4503599627370496) in Hb. nia. }
  subst n. change 4503599627370496 with (2 ^ 52) at 1.
  rewrite rne_divides by lia.
  unfold rounded, pack.
  destruct (Z.ltb_spec (Zpos m) (2 ^ 53)); [|lia].
  replace (e + -52 + 52) with e by lia.
  destruct (Z.leb_spec e 971); [reflexivity | lia].
Qed.

(** * The value of a double: facts *)

Lemma Q2_pos (e : Z) : (0 < Q2 e)%Q.
Proof. apply Qpower_0_lt. reflexivity. Qed.

Lemma Q2_add (a b : Z) : (Q2 (a + b) == Q2 a * Q2 b)%Q.
Proof. apply Qpower_plus. discriminate. Qed.

Lemma Q2_Z (n : Z) : 0 <= n -> (Q2 n == inject_Z (2 ^ n))%Q.
Proof. intros Hn. unfold Q2. now rewrite Zpower_Qpower. Qed.

Lemma within_mul (lo1 hi1 lo2 hi2 v1 x1 v2 x2 : Q) :
  (0 < lo1)%Q -> (0 < lo2)%Q -> (0 < x1)%Q -> (0 < x2)%Q ->
  within lo1 hi1 v1 x1 -> within lo2 hi2 v2 x2 ->
  within (lo1 * lo2) (hi1 * hi2) (v1 * v2) (x1 * x2).
Proof.
  unfold within. intros H1 H2 H3 H4 [Ha Hb] [Hc Hd].
  assert (0 < lo1 * x1)%Q by nra. assert (0 < lo2 * x2)%Q by nra.
  split; nra.
Qed.

Lemma within_trans (lo1 hi1 lo2 hi2 w v x : Q) :
  (0 < lo1)%Q -> (0 < x)%Q -> (0 < lo2)%Q ->
  within lo1 hi1 w v -> within lo2 hi2 v x ->
  within (lo1 * lo2) (hi1 * hi2) w x.
Proof.
  unfold within. intros H1 H2 H3 [Ha Hb] [Hc Hd].
  assert (0 < lo2 * x)%Q by nra.
  assert (0 < v)%Q by nra.
  assert (0 < hi1)%Q by nra.
  split; nra.
Qed.

Lemma within_div (lo1 hi1 lo2 hi2 v1 x1 v2 x2 : Q) :
  (0 < lo1)%Q -> (0 < lo2)%Q -> (0 < x1)%Q -> (0 < x2)%Q ->
  within lo1 hi1 v1 x1 -> within lo2 hi2 v2 x2 ->
  within (lo1 / hi2) (hi1 / lo2) (v1 / v2) (x1 / x2).
Proof.
  unfold within. intros H1 H2 H3 H4 [Ha Hb] [Hc Hd].
  assert (Hv2 : (0 < v2)%Q) by nra.
  assert (Hh2 : (0 < hi2)%Q) by nra.
  assert (Hv1 : (0 < v1)%Q) by nra.
  split.
  - apply Qle_shift_div_l; [exact Hv2|].
    assert (E : (lo1 / hi2 * (x1 / x2) * v2 == (lo1 * x1) * (v2 / (hi2 * x2)))%Q)
      by (field; split; lra).
    rewrite E.
    assert (Ht : (v2 / (hi2 * x2) <= 1)%Q) by (apply Qle_shift_div_r; nra).
    assert (Hw : (0 < lo1 * x1)%Q) by nra.
    set (t := (v2 / (hi2 * x2))%Q) in *. set (w := (lo1 * x1)%Q) in *.
    clearbody t w. nra.
  - apply Qle_shift_div_r; [exact Hv2|].
    assert (E : (hi1 / lo2 * (x1 / x2) * v2 == (hi1 * x1) * (v2 / (lo2 * x2)))%Q)
      by (field; split; lra).
    rewrite E.
    assert (Ht : (1 <= v2 / (lo2 * x2))%Q) by (apply Qle_shift_div_l; nra).
    assert (Hw : (0 < hi1 * x1)%Q) by nra.
    set (t := (v2 / (lo2 * x2))%Q) in *. set (w := (hi1 * x1)%Q) in *.
    clearbody t w. nra.
Qed.

Lemma within_max1 (lo hi v x : Q) :
  (0 < lo)%Q -> (lo <= 1)%Q -> (1 <= hi)%Q -> (0 <= x)%Q ->
  within lo hi v x -> within lo hi (Qmax 1 v) (Qmax 1 x).
Proof.
  unfold within. intros H1 H2 H3 H4 [Ha Hb].
  destruct (Q.max_spec_le 1 v) as [[Hv ->] | [Hv ->]];
    destruct (Q.max_spec_le 1 x) as [[Hx ->] | [Hx ->]]; split; nra.
Qed.

Lemma within_scale (lo hi v x c : Q) :
  (0 < c)%Q -> within lo hi v x -> within lo hi (v * c) (x * c).
Proof. unfold within. intros Hc [Ha Hb]. split; nra. Qed.

Lemma within_eq (lo hi v v' x x' : Q) :
  (v == v')%Q -> (x == x')%Q -> within lo hi v x -> within lo hi v' x'.
Proof. unfold within. intros -> ->. tauto. Qed.

Lemma value_finite (m : positive) (e : Z) :
  (value (S754_finite false m e) == inject_Z (Zpos m) * Q2 e)%Q.
Proof. cbn [value]. ring. Qed.

Lemma rounded_value (mr e : Z) :
  2 ^ 52 <= mr <= 2 ^ 53 -> e + 1 <= 971 ->
  (value (rounded mr e) == inject_Z mr * Q2 e)%Q.
Proof.
  intros Hmr He. unfold rounded, pack.
  destruct (Z.ltb_spec mr (2 ^ 53)).
  - destruct (Z.leb_spec e 971); [|lia].
    rewrite value_finite, Z2Pos.id by lia. reflexivity.
  - destruct (Z.leb_spec (e + 1) 971); [|lia].
    rewrite value_finite, Z2Pos.id by lia.
    assert (mr = 2 ^ 53) as -> by lia.
    rewrite Q2_add. change (Q2 1) with (2 # 1)%Q.
    change (2 ^ 53) with (2 ^ 52 * 2). rewrite inject_Z_mult.
    change (inject_Z 2) with (2 # 1)%Q. ring.
Qed.

(** The nearest integer to [a / (2^n * b)], scaled back by [2^n], is
    within half a unit of the last of 53 places of [a / b]. *)
Lemma rne_within (a b n : Z) :
  0 < b -> 0 <= n -> 2 ^ (52 + n) * b <= a ->
  within ulp_lo ulp_hi
         (inject_Z (rne a (2 ^ n * b)) * inject_Z (2 ^ n))
         (inject_Z a / inject_Z b).
Proof.
  intros Hb Hn Ha.
  pose proof (pow2_pos n Hn) as Hp.
  pose proof (rne_half a (2 ^ n * b) ltac:(nia)) as Hhalf.
  set (mr := rne a (2 ^ n * b)) in *. clearbody mr.
  rewrite Z.pow_add_r in Ha by lia.
  change (2 ^ 52) with 4503599627370496 in Ha.
  set (N := mr * 2 ^ n).
  assert (HZ : 9007199254740991 * a <= 9007199254740992 * (N * b) /\
               9007199254740992 * (N * b) <= 9007199254740993 * a).
  { unfold N. set (k := 2 ^ n) in *. clearbody k. nia. }
  destruct HZ as [Hlo Hhi].
  rewrite <- inject_Z_mult. fold N. clearbody N.
  rewrite Zle_Qle in Hlo, Hhi. rewrite !inject_Z_mult in Hlo, Hhi.
  assert (HB : (0 < inject_Z b)%Q)
    by (change (inject_Z 0 < inject_Z b)%Q; rewrite <- Zlt_Qlt; exact Hb).
  set (A := inject_Z a) in *. set (B := inject_Z b) in *.
  set (NQ := inject_Z N) in *. clearbody A B NQ.
  change (inject_Z 9007199254740991) with (9007199254740991 # 1)%Q in *.
  change (inject_Z 9007199254740992) with (9007199254740992 # 1)%Q in *.
  change (inject_Z 9007199254740993) with (9007199254740993 # 1)%Q in *.
  unfold within, ulp_lo, ulp_hi. split.
  - assert (E : ((1 - (1 # 9007199254740992)) * (A / B) ==
                 ((1 - (1 # 9007199254740992)) * A) / B)%Q) by (field; lra).
    rewrite E. apply Qle_shift_div_r; [exact HB | lra].
  - assert (E : ((1 + (1 # 9007199254740992)) * (A / B) ==
                 ((1 + (1 # 9007199254740992)) * A) / B)%Q) by (field; lra).
    rewrite E. apply Qle_shift_div_l; [exact HB | lra].
Qed.

Lemma inject_Z_pos (z : Z) : 0 < z -> (0 < inject_Z z)%Q.
Proof. intros Hz. change (inject_Z 0 < inject_Z z)%Q. now rewrite <- Zlt_Qlt. Qed.

Lemma value_pos (m : positive) (e : Z) : (0 < value (S754_finite false m e))%Q.
Proof.
  rewrite value_finite.
  pose proof (Q2_pos e). pose proof (inject_Z_pos (Zpos m) ltac:(lia)). nra.
Qed.

Lemma mul_within (m1 m2 : positive) (e1 e2 : Z) :
  2 ^ 52 <= Zpos m1 < 2 ^ 53 -> 2 ^ 52 <= Zpos m2 < 2 ^ 53 ->
  -1074 <= e1 + e2 + 52 -> e1 + e2 + 54 <= 971 ->
  within ulp_lo ulp_hi
         (value (mul (S754_finite false m1 e1) (S754_finite false m2 e2)))
         (value (S754_finite false m1 e1) * value (S754_finite false m2 e2)).
Proof.
  intros H1 H2 Hlo Hhi.
  destruct (mul_normal_spec m1 m2 e1 e2 H1 H2 Hlo) as (n & Hn & Hb & Hmr & ->).
  assert (Hn0 : 0 <= n) by lia.
  pose proof (rne_within (Zpos m1 * Zpos m2) 1 n ltac:(lia) Hn0 ltac:(lia)) as Hw.
  rewrite Z.mul_1_r in Hw.
  apply (within_scale _ _ _ _ (Q2 (e1 + e2)) (Q2_pos _)) in Hw.
  revert Hw. apply within_eq.
  - rewrite rounded_value by lia.
    rewrite (Q2_add (e1 + e2) n), (Q2_Z n Hn0). ring.
  - rewrite !value_finite, Q2_add, inject_Z_mult. field.
Qed.

Lemma div_within (m1 m2 : positive) (e1 e2 : Z) :
  2 ^ 52 <= Zpos m1 < 2 ^ 53 -> 2 ^ 52 <= Zpos m2 < 2 ^ 53 ->
  -1074 <= e1 - e2 - 53 -> e1 - e2 - 51 <= 971 ->
  within ulp_lo ulp_hi
         (value (div (S754_finite false m1 e1) (S754_finite false m2 e2)))
         (value (S754_finite false m1 e1) / value (S754_finite false m2 e2)).
Proof.
  intros H1 H2 Hlo Hhi.
  destruct (div_normal_spec m1 m2 e1 e2 H1 H2 Hlo) as (n & Hn & Hb & Hmr & ->).
  assert (Hn0 : 0 <= n) by lia.
  assert (Hge : 2 ^ (52 + n) * Zpos m2 <= Zpos m1 * 2 ^ 53).
  { destruct Hb as [Hb _].
    pose proof (Z.mul_div_le (Zpos m1 * 2 ^ 53) (Zpos m2) ltac:(lia)). nia. }
  pose proof (rne_within (Zpos m1 * 2 ^ 53) (Zpos m2) n ltac:(lia) Hn0 Hge) as Hw.
  apply (within_scale _ _ _ _ (Q2 (e1 - e2 - 53)) (Q2_pos _)) in Hw.
  revert Hw. apply within_eq.
  - rewrite rounded_value by lia.
    rewrite (Q2_add (e1 - e2 - 53) n), (Q2_Z n Hn0). ring.
  - rewrite !value_finite, inject_Z_mult.
    replace e1 with ((e1 - e2 - 53) + 53 + e2) at 2 by lia.
    rewrite !Q2_add, (Q2_Z 53) by lia.
    pose proof (Q2_pos e2). pose proof (inject_Z_pos (Zpos m2) ltac:(lia)).
    field. split; lra.
Qed.

Lemma within_refl (x : Q) : within 1 1 x x.
Proof. unfold within. split; lra. Qed.

Lemma within_weaken (lo hi lo' hi' v x : Q) :
  (0 <= x)%Q -> (lo' <= lo)%Q -> (hi <= hi')%Q ->
  within lo hi v x -> within lo' hi' v x.
Proof. unfold within. intros Hx Hl Hh [Ha Hb]. split; nra. Qed.

Lemma ulp_lo_pos : (0 < ulp_lo)%Q.
Proof. reflexivity. Qed.

Lemma ulp_brackets_one : (ulp_lo <= 1 /\ 1 <= ulp_hi)%Q.
Proof. split; discriminate. Qed.

Lemma of_Z_tracks (n : Z) :
  0 < n < 2 ^ 64 -> tracks ulp_lo ulp_hi (-52) 12 (of_Z n) (inject_Z n).
Proof.
  intros Hn. split; [now apply of_Z_normal|].
  split; [apply inject_Z_pos; lia|].
  destruct (Z.ltb_spec n (2 ^ 53)) as [Hs | Hl].
  - destruct (of_Z_exact n ltac:(lia)) as (m & e & -> & Hm & He & Hval).
    apply (within_weaken 1 1); try (apply ulp_brackets_one).
    + apply Qlt_le_weak, inject_Z_pos; lia.
    + apply (within_eq 1 1 (inject_Z n) _ (inject_Z n)); [|reflexivity|apply within_refl].
      rewrite value_finite, Hval, inject_Z_mult, <- (Q2_Z (- e)) by lia.
      rewrite <- Qmult_assoc, <- Q2_add. replace (- e + e) with 0 by lia.
      change (Q2 0) with 1%Q. ring.
  - destruct (of_Z_rounds n Hl) as (k & Hk & Hb & Hmr & ->).
    assert (k < 12).
    { destruct (Z.ltb_spec k 12); [assumption|].
      assert (2 ^ 64 <= 2 ^ (52 + k)) by (apply Z.pow_le_mono_r; lia). lia. }
    pose proof (rne_within n 1 k ltac:(lia) Hk ltac:(lia)) as Hw.
    rewrite Z.mul_1_r in Hw. revert Hw. apply within_eq.
    + rewrite rounded_value, (Q2_Z k) by lia. reflexivity.
    + change (inject_Z 1) with 1%Q. field.
Qed.

Lemma mul_tracks (lo1 hi1 lo2 hi2 : Q) (l1 h1 l2 h2 : Z) (x y : double)
      (X Y : Q) :
  (0 < lo1)%Q -> (0 < lo2)%Q ->
  -1074 <= l1 + l2 + 52 -> h1 + h2 + 54 <= 971 ->
  tracks lo1 hi1 l1 h1 x X -> tracks lo2 hi2 l2 h2 y Y ->
  tracks (ulp_lo * (lo1 * lo2)) (ulp_hi * (hi1 * hi2))
         (l1 + l2 + 52) (h1 + h2 + 54) (mul x y) (X * Y).
Proof.
  intros Hl1 Hl2 Hlo Hhi (Hnx & HX & Hwx) (Hny & HY & Hwy).
  split; [now apply (mul_pos_normal x y l1 h1 l2 h2)|].
  split; [nra|].
  destruct Hnx as (m1 & e1 & -> & Hm1 & He1).
  destruct Hny as (m2 & e2 & -> & Hm2 & He2).
  pose proof (mul_within m1 m2 e1 e2 Hm1 Hm2 ltac:(lia) ltac:(lia)) as Hr.
  pose proof (within_mul _ _ _ _ _ _ _ _ Hl1 Hl2 HX HY Hwx Hwy) as Hp.
  assert (Hxy : (0 < X * Y)%Q) by nra.
  assert (Hll : (0 < lo1 * lo2)%Q) by nra.
  exact (within_trans _ _ _ _ _ _ _ ulp_lo_pos Hxy Hll Hr Hp).
Qed.

Lemma div_tracks (lo1 hi1 lo2 hi2 : Q) (l1 h1 l2 h2 : Z) (x y : double)
      (X Y : Q) :
  (0 < lo1)%Q -> (0 < lo2)%Q -> (0 < hi2)%Q ->
  -1074 <= l1 - h2 - 53 -> h1 - l2 - 51 <= 971 ->
  tracks lo1 hi1 l1 h1 x X -> tracks lo2 hi2 l2 h2 y Y ->
  tracks (ulp_lo * (lo1 / hi2)) (ulp_hi * (hi1 / lo2))
         (l1 - h2 - 53) (h1 - l2 - 51) (div x y) (X / Y).
Proof.
  intros Hl1 Hl2 Hh2 Hlo Hhi (Hnx & HX & Hwx) (Hny & HY & Hwy).
  split; [now apply (div_pos_normal x y l1 h1 l2 h2)|].
  assert (Hxy : (0 < X / Y)%Q) by (apply Qlt_shift_div_l; lra).
  split; [exact Hxy|].
  destruct Hnx as (m1 & e1 & -> & Hm1 & He1).
  destruct Hny as (m2 & e2 & -> & Hm2 & He2).
  pose proof (div_within m1 m2 e1 e2 Hm1 Hm2 ltac:(lia) ltac:(lia)) as Hr.
  pose proof (within_div _ _ _ _ _ _ _ _ Hl1 Hl2 HX HY Hwx Hwy) as Hp.
  assert (Hll : (0 < lo1 / hi2)%Q) by (apply Qlt_shift_div_l; lra).
  exact (within_trans _ _ _ _ _ _ _ ulp_lo_pos Hxy Hll Hr Hp).
Qed.

Lemma Q2_le (a b : Z) : a <= b -> (Q2 a <= Q2 b)%Q.
Proof.
  intros Hab. replace b with (a + (b - a)) by lia.
  rewrite Q2_add, (Q2_Z (b - a)) by lia.
  pose proof (Q2_pos a).
  assert ((1 <= inject_Z (2 ^ (b - a)))%Q).
  { change 1%Q with (inject_Z 1). rewrite <- Zle_Qle.
    pose proof (pow2_pos (b - a) ltac:(lia)). lia. }
  nra.
Qed.

Lemma value_d1_0 : (value d1_0 == 1)%Q.
Proof. reflexivity. Qed.

Lemma value_MAX2 (x : double) (lo hi : Z) :
  pos_normal lo hi x ->
  (value (MAX2_double d1_0 x) == Qmax 1 (value x))%Q.
Proof.
  intros (m & e & -> & Hm & He).
  assert (Hmq : (inject_Z (2 ^ 52) <= inject_Z (Zpos m) /\
                 inject_Z (Zpos m) <= inject_Z (2 ^ 53))%Q)
    by (rewrite <- !Zle_Qle; lia).
  pose proof (Q2_pos e) as Hq.
  rewrite d1_0_eq. unfold MAX2_double, gt. rewrite SFltb_finite.
  rewrite <- d1_0_eq.
  destruct (Z.compare_spec e (-52)) as [Heq | Hlt | Hgt].
  - assert (Hge : (m ?= 4503599627370496)%positive <> Lt).
    { rewrite Pos.compare_lt_iff. intros Hc.
      apply Pos2Z.pos_lt_pos in Hc. lia. }
    assert (Hv : (1 <= value (S754_finite false m e))%Q).
    { rewrite value_finite. subst e.
      assert (E : (1 == inject_Z (2 ^ 52) * Q2 (-52))%Q) by reflexivity.
      rewrite E. pose proof (Q2_pos (-52)). nra. }
    destruct (m ?= 4503599627370496)%positive; try congruence;
      now rewrite Q.max_r.
  - rewrite Q.max_l; [apply value_d1_0|].
    rewrite value_finite.
    pose proof (Q2_le e (-53) ltac:(lia)) as Hle.
    assert (E : (1 == inject_Z (2 ^ 53) * Q2 (-53))%Q) by reflexivity.
    rewrite E. pose proof (Q2_pos (-53)).
    destruct Hmq as [Hm1 Hm2].
    assert ((0 <= inject_Z (Zpos m))%Q).
    { apply Qlt_le_weak, inject_Z_pos. lia. }
    nra.
  - rewrite Q.max_r; [reflexivity|].
    rewrite value_finite.
    pose proof (Q2_le (-52) e ltac:(lia)) as Hle.
    assert (E : (1 == inject_Z (2 ^ 52) * Q2 (-52))%Q) by reflexivity.
    rewrite E. pose proof (Q2_pos (-52)).
    destruct Hmq as [Hm1 Hm2].
    assert ((0 <= inject_Z (2 ^ 52))%Q) by discriminate.
    nra.
Qed.


Ltac closedQ := vm_compute; (reflexivity || discriminate).

Lemma MAX2_tracks (lo hi : Q) (l h : Z) (x : double) (X : Q) :
  (0 < lo)%Q -> (lo <= 1)%Q -> (1 <= hi)%Q ->
  tracks lo hi l h x X ->
  tracks lo hi (-52) (Z.max (-52) h) (MAX2_double d1_0 x) (Qmax 1 X).
Proof.
  intros H0 H1 H2 (Hn & HX & Hw).
  split; [now apply (MAX2_one_normal x l h)|].
  split.
  - apply Qlt_le_trans with 1%Q; [reflexivity | apply Q.le_max_l].
  - apply (within_eq lo hi (Qmax 1 (value x)) _ (Qmax 1 X));
      [symmetry; apply (value_MAX2 x l h Hn) | reflexivity |].
    apply within_max1; try assumption. now apply Qlt_le_weak.
Qed.

Lemma share_tracks (k : Z) :
  1 <= k <= 3 -> tracks 1 1 (-52) (-51) (of_Z k) (inject_Z k).
Proof.
  intros Hk. split; [now apply share_normal|].
  split; [apply inject_Z_pos; lia|].
  assert (k = 1 \/ k = 2 \/ k = 3) as [-> | [-> | ->]] by lia;
    unfold within; split; vm_compute; discriminate.
Qed.

Lemma surcharge_tracks : tracks ulp_lo ulp_hi (-52) (-52) d1_1 (11 # 10).
Proof.
  split; [|split].
  - exists 4953959590107546%positive, (-52). repeat split; lia.
  - reflexivity.
  - unfold within. split; vm_compute; discriminate.
Qed.

Lemma phase_tax_within (work taxable share : Z) :
  0 <= work < 2 ^ 64 -> 0 < taxable < 2 ^ 64 -> 1 <= share <= 3 ->
  within tax_lo tax_hi
    (value (mul (MAX2_double d1_0
                   (mul (div (mul d1_0 (of_Z work)) (of_Z taxable))
                        (of_Z share)))
                d1_1))
    (Qmax 1 (inject_Z share * inject_Z work / inject_Z taxable) * (11 # 10)).
Proof.
  intros Hw Ht Hs.
  pose proof (of_Z_tracks taxable Ht) as TT.
  pose proof (share_tracks share Hs) as TS.
  pose proof (inject_Z_pos taxable ltac:(lia)) as HT.
  destruct (Z.eq_dec work 0) as [-> | Hnz].
  - destruct TT as ((mt & et & -> & _) & _). destruct TS as ((ms & es & -> & _) & _).
    change (mul (MAX2_double d1_0 _) d1_1) with d1_1.
    destruct surcharge_tracks as (_ & _ & Hc).
    assert (E : (Qmax 1 (inject_Z share * inject_Z 0 / inject_Z taxable) == 1)%Q).
    { apply Q.max_l. change (inject_Z 0) with 0%Q.
      assert (E0 : (inject_Z share * 0 / inject_Z taxable == 0)%Q) by (field; lra).
      rewrite E0. discriminate. }
    apply (within_eq tax_lo tax_hi (value d1_1) _ (11 # 10));
      [reflexivity | rewrite E; ring |].
    apply (within_weaken ulp_lo ulp_hi); try discriminate. exact Hc.
  - pose proof (of_Z_tracks work ltac:(lia)) as TW.
    pose proof (share_tracks 1 ltac:(lia)) as T1.
    pose proof (mul_tracks 1 1 ulp_lo ulp_hi (-52) (-51) (-52) 12 _ _ _ _
                  ltac:(closedQ) ltac:(closedQ) ltac:(lia) ltac:(lia) T1 TW)
      as A1.
    match type of A1 with tracks ?lo ?hi ?l ?h _ _ =>
      pose proof (div_tracks lo hi ulp_lo ulp_hi l h (-52) 12 _ _ _ _
                    ltac:(closedQ) ltac:(closedQ) ltac:(closedQ)
                    ltac:(lia) ltac:(lia) A1 TT) as A2 end.
    match type of A2 with tracks ?lo ?hi ?l ?h _ _ =>
      pose proof (mul_tracks lo hi 1 1 l h (-52) (-51) _ _ _ _
                    ltac:(closedQ) ltac:(closedQ) ltac:(lia) ltac:(lia) A2 TS)
        as A3 end.
    match type of A3 with tracks ?lo ?hi ?l ?h _ _ =>
      pose proof (MAX2_tracks lo hi l h _ _
                    ltac:(closedQ) ltac:(closedQ) ltac:(closedQ) A3) as A4 end.
    match type of A4 with tracks ?lo ?hi ?l ?h _ _ =>
      pose proof (mul_tracks lo hi ulp_lo ulp_hi l h (-52) (-52) _ _ _ _
                    ltac:(closedQ) ltac:(closedQ) ltac:(lia) ltac:(lia)
                    A4 surcharge_tracks) as A5 end.
    destruct A5 as (_ & Hpos & Hwithin).
    apply (within_weaken _ _ tax_lo tax_hi) in Hwithin;
      [|now apply Qlt_le_weak | closedQ | closedQ].
    revert Hwithin. apply within_eq; [reflexivity|].
    apply Qmult_comp; [|reflexivity].
    apply Q.max_compat; [reflexivity|].
    change (inject_Z 1) with 1%Q. field. lra.
Qed.

(** * Properties *)

Section ClaimFacts.

Context `{Platform}.

Lemma MAX2_intptr_max (a b : Z) : MAX2_intptr a b = Z.max a b.
Proof. unfold MAX2_intptr. destruct (Z.gtb_spec a b); lia. Qed.

Lemma claim_tax_positive (words : Z) (rate : double) :
  1 <= claim_tax words rate.
Proof. unfold claim_tax. rewrite MAX2_intptr_max. lia. Qed.

Lemma set_budget_same (p : pacer) : set_budget (budget p) p = p.
Proof. destruct p; reflexivity. Qed.

(** The loop fails exactly on an observed budget below the cost. *)
Lemma claim_loop_spec (env : schedule) (tax b : Z) :
  let '(ok, cur, b') := claim_loop env tax b in
  (ok = false <-> cur < tax) /\
  (ok = false -> b' = cur) /\
  (ok = true -> b' = cur - tax).
Proof.
  revert b. induction env as [|f env IH]; intros b; simpl.
  - destruct (Z.ltb_spec b tax); repeat split; intros; try lia; congruence.
  - destruct (Z.ltb_spec b tax).
    + repeat split; intros; try lia; congruence.
    + destruct (Z.eqb_spec (f b) b).
      * repeat split; intros; try lia; congruence.
      * apply IH.
Qed.

Lemma claim_loop_quiet (tax b : Z) :
  claim_loop [] tax b =
  if b <? tax then (false, b, b) else (true, b, b - tax).
Proof. reflexivity. Qed.

Lemma claim_loop_depleted (env : schedule) (tax b : Z) :
  b < tax -> claim_loop env tax b = (false, b, b).
Proof.
  intros Hlt. destruct env; simpl;
    destruct (Z.ltb_spec b tax); try lia; reflexivity.
Qed.

Lemma claim_for_alloc_depleted (env : schedule) (words : Z) (force : bool)
      (p : pacer) :
  budget p < claim_tax words (tax_rate p) ->
  claim_for_alloc env words force p = (false, p).
Proof.
  intros Hlt. unfold claim_for_alloc.
  rewrite claim_loop_depleted by assumption.
  now rewrite set_budget_same.
Qed.

Lemma restart_loop_installs (env : schedule) (initial b : Z) :
  restart_loop env initial b = initial.
Proof.
  revert b. induction env as [|f env IH]; intros b; simpl.
  - reflexivity.
  - destruct (f b =? b); [reflexivity | apply IH].
Qed.

End ClaimFacts.

Section PacerFacts.

Context `{Platform}.
Variable fl : flags.

Lemma claim_for_alloc_frame (env : schedule) (words : Z) (force : bool)
      (p : pacer) :
  tax_rate (snd (claim_for_alloc env words force p)) = tax_rate p /\
  delays (snd (claim_for_alloc env words force p)) = delays p.
Proof.
  unfold claim_for_alloc.
  destruct (claim_loop env (claim_tax words (tax_rate p)) (budget p))
    as [[ok cur] b].
  split; reflexivity.
Qed.

Lemma interfere_frame (w : Z * double -> Z * double) (p : pacer) :
  delays (interfere w p) = delays p.
Proof. unfold interfere. destruct (w (budget p, tax_rate p)); reflexivity. Qed.

Lemma to_size_t_range (d : double) : 0 <= to_size_t d < 2 ^ 64.
Proof.
  assert (Hmod : forall z, 0 <= LP64.to_size_t z < 2 ^ 64)
    by (intros z; apply Z.mod_pos_bound; reflexivity).
  unfold to_size_t. destruct (trunc d) as [z|]; [|apply Hmod].
  destruct (Z.leb_spec 0 z); [|apply Hmod].
  destruct (Z.leb_spec z LP64.max_uintx) as [Hz|]; [|apply Hmod].
  cbn [andb]. unfold LP64.max_uintx, LP64.BitsPerWord in Hz. lia.
Qed.

Lemma to_intptr_small (z : Z) :
  0 <= z < 2 ^ 63 -> LP64.to_intptr z = z.
Proof.
  intros Hz. unfold LP64.to_intptr, LP64.BitsPerWord.
  change (64 - 1) with 63.
  rewrite Z.mod_small by lia.
  destruct (Z.ltb_spec z (2 ^ 63)); lia.
Qed.

Lemma allowance_is_jlong (x : Z) :
  LP64.to_intptr (LP64.to_size_t x / 100) = LP64.to_size_t x / 100.
Proof.
  apply to_intptr_small.
  assert (0 <= LP64.to_size_t x < 2 ^ 64)
    by (apply Z.mod_pos_bound; reflexivity).
  split; [apply Z.div_pos; lia|].
  apply Z.div_lt_upper_bound; lia.
Qed.

Lemma initial_budget_allowance (a : Z) (rate : double) :
  initial_budget a rate = allowance_budget a rate.
Proof.
  unfold initial_budget, allowance_budget. apply to_intptr_small.
  pose proof (to_size_t_range (mul (of_Z a) rate)) as Hr.
  rewrite Z.shiftr_div_pow2 by (unfold LP64.LogHeapWordSize; lia).
  unfold LP64.LogHeapWordSize. split; [apply Z.div_pos; lia|].
  apply Z.div_lt_upper_bound; lia.
Qed.

Lemma restart_with_store (env : schedule) (nt : Z) (rate : double)
      (p : pacer) :
  restart_with env nt rate p = restart_store nt rate p.
Proof.
  unfold restart_with, restart_store, set_tax_rate, set_budget.
  cbn [budget tax_rate delays]. now rewrite restart_loop_installs.
Qed.

(** ** The claim *)

(** C1. A non-forced claim returns false and leaves the budget as its last
    load observed it exactly when that budget is below the cost; otherwise
    it returns true and the budget is the observed one less the cost.
    Undisturbed, the observed budget is the budget of the state. A claim
    of 1000 words against a budget of 500 at rate 1.0 fails and changes
    nothing; once [restart_with] has installed 2000 words the same claim
    succeeds and leaves 1000. *)
Theorem claim_for_alloc_fails_iff_depleted :
  (forall (env : schedule) (cost b : Z),
      let '(ok, cur, b') := claim_loop env cost b in
      (ok = false <-> cur < cost) /\
      (ok = false -> b' = cur) /\
      (ok = true -> b' = cur - cost)) /\
  (forall (env : schedule) (words : Z) (p : pacer),
      let cost := claim_tax words (tax_rate p) in
      let cur := claim_observed env words p in
      let r := claim_for_alloc env words false p in
      (fst r = false <-> cur < cost) /\
      (fst r = false -> budget (snd r) = cur) /\
      (fst r = true -> budget (snd r) = cur - cost) /\
      tax_rate (snd r) = tax_rate p /\ delays (snd r) = delays p) /\
  (forall (words : Z) (p : pacer),
      let cost := claim_tax words (tax_rate p) in
      claim_for_alloc [] words false p =
      if budget p <? cost then (false, p)
      else (true, set_budget (budget p - cost) p)) /\
  (forall (hist : histogram),
      let p0 := mkPacer 500 d1_0 hist in
      let p1 := restart_with [] 16000 d1_0 p0 in
      claim_tax 1000 d1_0 = 1000 /\
      claim_for_alloc [] 1000 false p0 = (false, p0) /\
      p1 = mkPacer 2000 d1_0 hist /\
      claim_for_alloc [] 1000 false p1 = (true, mkPacer 1000 d1_0 hist)).
Proof.
  split; [exact claim_loop_spec|]. split; [|split].
  - intros env words p cost cur r. subst cost cur r.
    unfold claim_observed, claim_for_alloc.
    pose proof (claim_loop_spec env (claim_tax words (tax_rate p)) (budget p))
      as Hspec.
    destruct (claim_loop env (claim_tax words (tax_rate p)) (budget p))
      as [[ok cur] b].
    cbn [fst snd set_budget budget tax_rate delays]. tauto.
  - intros words p cost. subst cost. unfold claim_for_alloc.
    rewrite claim_loop_quiet.
    destruct (budget p <? claim_tax words (tax_rate p)).
    + now rewrite set_budget_same.
    + reflexivity.
  - intros hist. vm_compute. repeat split; reflexivity.
Qed.

(** C2. The code does not do what the claim says: a forced claim of 1000
    words against a budget of 500 at rate 1.0 is refused like a non-forced
    one and leaves the budget at 500, and so does the forced claim that
    [pace_for_alloc] makes once the maximal delay has passed. *)
Theorem forced_claim_is_refused :
  forall (hist : histogram),
    let p0 := mkPacer 500 d1_0 hist in
    claim_for_alloc [] 1000 true p0 = (false, p0) /\
    pace_for_alloc (mkFlags 10 1 10) [] (of_Z 0)
                   [mkTick (fun s => s) (of_Z 1) []] 1000 p0 =
    Some (TimedOut 1000, mkPacer 500 d1_0 (histogram_add 1000 hist)).
Proof. intros hist. vm_compute. split; reflexivity. Qed.

(** C3. The force argument of [claim_for_alloc] has no effect: with it or
    without, the result and the state left are the same. *)
Theorem claim_for_alloc_ignores_force :
  forall (env : schedule) (words : Z) (p : pacer),
    claim_for_alloc env words true p = claim_for_alloc env words false p.
Proof. reflexivity. Qed.

(** C8. [restart_with] is a plain store: whatever the budget before and
    whatever the other threads do to it during the loop, the state left
    reads the budget computed from the arguments and the rate given. *)
Theorem restart_with_is_store :
  (forall (env : schedule) (nt : Z) (rate : double) (p : pacer),
      restart_with env nt rate p = restart_store nt rate p) /\
  (forall (env1 env2 : schedule) (nt : Z) (rate : double) (p1 p2 : pacer),
      budget (restart_with env1 nt rate p1) =
      budget (restart_with env2 nt rate p2) /\
      tax_rate (restart_with env1 nt rate p1) =
      tax_rate (restart_with env2 nt rate p2)) /\
  (forall (env : schedule) (nt : Z) (rate : double) (p : pacer),
      budget (restart_with env nt rate p) = initial_budget nt rate /\
      tax_rate (restart_with env nt rate p) = rate /\
      delays (restart_with env nt rate p) = delays p).
Proof.
  split; [exact restart_with_store|]. split.
  - intros. rewrite !restart_with_store. split; reflexivity.
  - intros. rewrite restart_with_store. repeat split; reflexivity.
Qed.

Lemma claim_all_depleted (calls : list (schedule * Z * bool)) (p : pacer) :
  budget p <= 0 ->
  claim_all calls p = (repeat false (length calls), p).
Proof.
  intros Hb. induction calls as [|[[env words] force] calls IH].
  - reflexivity.
  - cbn [claim_all length repeat].
    rewrite claim_for_alloc_depleted, IH; [reflexivity|].
    pose proof (claim_tax_positive words (tax_rate p)). lia.
Qed.

(** C9. The cost of a claim is the larger of 1 and the truncated product
    of the words and the tax rate, hence at least 1; so with a budget of
    zero or less every non-forced claim fails and leaves the state as it
    was, however many are made. *)
Theorem depleted_budget_refuses_claims :
  forall (calls : list (schedule * Z * bool)) (p : pacer),
    budget p <= 0 ->
    Forall (fun c => snd c = false) calls ->
    (forall (words : Z) (rate : double),
        claim_tax words rate = Z.max 1 (to_intptr (mul (of_Z words) rate)) /\
        1 <= claim_tax words rate) /\
    (forall (env : schedule) (words : Z),
        claim_for_alloc env words false p = (false, p)) /\
    claim_all calls p = (repeat false (length calls), p).
Proof.
  intros calls p Hb _. split; [|split].
  - intros words rate. split; [apply MAX2_intptr_max | apply claim_tax_positive].
  - intros env words. apply claim_for_alloc_depleted.
    pose proof (claim_tax_positive words (tax_rate p)). lia.
  - now apply claim_all_depleted.
Qed.

(** ** The throttle *)

Lemma pace_loop_records (ticks : list tick) (words mw : Z) (start : double)
      (p p' : pacer) (out : pace_exit) :
  pace_loop ticks words mw start p = Some (out, p') ->
  exists ms t,
    (out = Claimed ms \/ out = TimedOut ms) /\
    In t ticks /\ ms = elapsed_ms start (now t) /\
    delays p' = histogram_add ms (delays p).
Proof.
  revert p. induction ticks as [|t ticks IH]; intros p Hrun; [discriminate|].
  cbn [pace_loop] in Hrun.
  set (ms := elapsed_ms start (now t)) in *.
  destruct (ms >? mw).
  - pose proof (claim_for_alloc_frame (contention t) words true
                  (delays_add ms (interfere (world t) p))) as [_ Hd].
    destruct (claim_for_alloc (contention t) words true
                (delays_add ms (interfere (world t) p))) as [ok p1].
    injection Hrun as <- <-. exists ms, t.
    cbn [snd] in Hd. rewrite Hd. cbn [delays_add delays].
    rewrite interfere_frame. repeat split; auto. now left.
  - pose proof (claim_for_alloc_frame (contention t) words false
                  (interfere (world t) p)) as [_ Hd].
    destruct (claim_for_alloc (contention t) words false
                (interfere (world t) p)) as [ok p1].
    cbn [snd] in Hd. rewrite interfere_frame in Hd.
    destruct ok.
    + injection Hrun as <- <-. exists ms, t.
      cbn [delays_add delays]. rewrite Hd. repeat split; auto. now left.
    + destruct (IH p1 Hrun) as (ms' & t' & Hout & Hin & Hms & Hdel).
      exists ms', t'. rewrite Hdel, Hd. repeat split; auto. now right.
Qed.

(** C10. [pace_for_alloc] touches the delay histogram on the slow path
    only: it leaves by the fast path exactly when the first claim
    succeeds, with the histogram as it was; a call that leaves the loop,
    by a claim that succeeded or past the maximal delay, has added one
    entry, the milliseconds elapsed at a reading of the clock. *)
Theorem pace_for_alloc_records_slow_path_only :
  forall (env : schedule) (start : double) (ticks : list tick) (words : Z)
         (p p' : pacer) (out : pace_exit),
    pace_for_alloc fl env start ticks words p = Some (out, p') ->
    (fst (claim_for_alloc env words false p) = true <-> out = FastPath) /\
    match out with
    | FastPath => delays p' = delays p
    | Claimed ms | TimedOut ms =>
        delays p' = histogram_add ms (delays p) /\
        (forall c, delays p' c = delays p c + (if c =? bucket ms then 1 else 0)) /\
        exists t, In t ticks /\ ms = elapsed_ms start (now t)
    end.
Proof.
  intros env start ticks words p p' out Hrun.
  unfold pace_for_alloc in Hrun.
  pose proof (claim_for_alloc_frame env words false p) as [_ Hd].
  destruct (claim_for_alloc env words false p) as [ok p1].
  cbn [fst snd] in *. destruct ok.
  - injection Hrun as <- <-. split; [tauto | exact Hd].
  - destruct (pace_loop_records _ _ _ _ _ _ _ Hrun)
      as (ms & t & Hout & Hin & Hms & Hdel).
    rewrite Hd in Hdel.
    assert (Hcount : forall c,
               delays p' c = delays p c + (if c =? bucket ms then 1 else 0)).
    { intros c. rewrite Hdel. unfold histogram_add.
      destruct (c =? bucket ms); lia. }
    destruct Hout as [-> | ->]; (split; [split; discriminate|]);
      (split; [exact Hdel | split; [exact Hcount | now exists t]]).
Qed.

Lemma pace_loop_bounded (q mw : Z) (start : double) (words : Z)
      (ticks : list tick) :
  forall (prev : Z) (p : pacer),
    prev <= mw ->
    steady q prev start ticks ->
    Exists (fun t => elapsed_ms start (now t) > mw) ticks ->
    exists out p',
      pace_loop ticks words mw start p = Some (out, p') /\
      match out with
      | FastPath => False
      | Claimed ms => ms <= mw
      | TimedOut ms => mw < ms <= mw + q
      end.
Proof.
  induction ticks as [|t ticks IH]; intros prev p Hprev Hsteady Hex.
  - inversion Hex.
  - cbn [pace_loop]. cbn [steady] in Hsteady. destruct Hsteady as [Hq Hrest].
    set (ms := elapsed_ms start (now t)) in *.
    destruct (Z.gtb_spec ms mw) as [Hgt | Hle].
    + destruct (claim_for_alloc (contention t) words true
                  (delays_add ms (interfere (world t) p))) as [ok p1].
      exists (TimedOut ms), p1. split; [reflexivity | lia].
    + destruct (claim_for_alloc (contention t) words false
                  (interfere (world t) p)) as [ok p1].
      destruct ok.
      * exists (Claimed ms), (delays_add ms p1). split; [reflexivity | lia].
      * apply (IH ms p1 Hle Hrest).
        inversion Hex as [? ? Hhd | ? ? Htl]; subst; [|assumption].
        fold ms in Hhd. lia.
Qed.

(** C4. When the clock passes the maximal delay at some round and advances
    by at most [q] ms between two readings, every call of
    [pace_for_alloc] returns: by the fast path when the first claim
    succeeds, by a later claim within the maximal delay, or past it by at
    most [q] ms. *)
Theorem pace_for_alloc_bounded_wait :
  forall (env : schedule) (start : double) (ticks : list tick) (words : Z)
         (p : pacer) (q : Z),
    0 <= ShenandoahPacingMaxDelay fl ->
    deadline_passes fl start ticks ->
    steady q 0 start ticks ->
    exists out p',
      pace_for_alloc fl env start ticks words p = Some (out, p') /\
      (fst (claim_for_alloc env words false p) = true -> out = FastPath) /\
      match out with
      | FastPath => fst (claim_for_alloc env words false p) = true
      | Claimed ms => ms <= ShenandoahPacingMaxDelay fl
      | TimedOut ms =>
          ShenandoahPacingMaxDelay fl < ms <= ShenandoahPacingMaxDelay fl + q
      end.
Proof.
  intros env start ticks words p q Hmw Hex Hsteady.
  unfold pace_for_alloc.
  destruct (claim_for_alloc env words false p) as [ok p1]. cbn [fst].
  destruct ok.
  - exists FastPath, p1. repeat split; reflexivity.
  - destruct (pace_loop_bounded q (ShenandoahPacingMaxDelay fl) start words
                ticks 0 p1 Hmw Hsteady Hex) as (out & p' & Hrun & Hout).
    exists out, p'. split; [exact Hrun|]. split; [discriminate|].
    destruct out; [contradiction | exact Hout | exact Hout].
Qed.

(** ** The setups *)

(** At rate [1.0] an allowance below 2^53 bytes comes back as it is. *)
Lemma unit_rate_exact (a : Z) :
  0 <= a < 2 ^ 53 -> to_size_t (mul (of_Z a) d1_0) = a.
Proof.
  intros Ha. destruct (Z.eq_dec a 0) as [-> | Hnz]; [reflexivity|].
  destruct (of_Z_exact a ltac:(lia)) as (m & e & -> & Hm & He & Hval).
  rewrite mul_one_r by lia.
  unfold to_size_t, trunc.
  rewrite Z.shiftl_div_pow2, Hval, Z.div_mul by lia.
  destruct (Z.leb_spec 0 a); [|lia].
  destruct (Z.leb_spec a LP64.max_uintx) as [|Hgt]; [reflexivity|].
  unfold LP64.max_uintx, LP64.BitsPerWord in Hgt. lia.
Qed.

Lemma size_t_bounds (z : Z) : LP64.is_size_t z -> 0 <= z < 2 ^ 64.
Proof.
  unfold LP64.is_size_t, LP64.max_uintx, LP64.BitsPerWord. lia.
Qed.

Lemma taxable_bounds (h : heap) : 0 <= taxable_of fl h < 2 ^ 64.
Proof. unfold taxable_of. apply Z.mod_pos_bound. reflexivity. Qed.

(** C5. With some taxable space left, the tax rate that [setup_for_mark],
    [setup_for_evac] and [setup_for_updaterefs] install is at least
    [1.1]; the one [setup_for_idle] installs is [1.0]. *)
Theorem phase_tax_at_least_surcharge :
  forall (env : schedule) (h : heap) (p : pacer),
    LP64.is_size_t (used h) ->
    LP64.is_size_t (live_data h) ->
    0 < taxable_of fl h ->
    ge (tax_rate (setup_for_mark fl env h p)) d1_1 = true /\
    ge (tax_rate (setup_for_evac fl env h p)) d1_1 = true /\
    ge (tax_rate (setup_for_updaterefs fl env h p)) d1_1 = true /\
    tax_rate (setup_for_idle fl env h p) = d1_0.
Proof.
  intros env h p Hu Hl Ht.
  apply size_t_bounds in Hu. apply size_t_bounds in Hl.
  pose proof (taxable_bounds h) as Hb.
  unfold taxable_of, non_taxable_of in Ht, Hb.
  unfold setup_for_mark, setup_for_evac, setup_for_updaterefs,
    setup_for_idle, restart_with, set_tax_rate.
  cbn [tax_rate].
  repeat split.
  - apply (phase_tax_floor (used h) _ 3); lia.
  - apply (phase_tax_floor (live_data h) _ 2); lia.
  - apply (phase_tax_floor (used h) _ 1); lia.
Qed.

Lemma setup_budget (env : schedule) (a : Z) (rate : double) (p : pacer) :
  let p' := restart_with env (LP64.to_intptr (LP64.to_size_t a / 100)) rate p in
  budget p' = allowance_budget (LP64.to_size_t a / 100) rate /\
  tax_rate p' = rate /\ delays p' = delays p.
Proof.
  cbv zeta. rewrite restart_with_store. unfold restart_store.
  cbn [budget tax_rate delays].
  rewrite allowance_is_jlong, initial_budget_allowance. repeat split.
Qed.

Lemma cycle_allowance (h : heap) :
  LP64.is_size_t (available h) ->
  0 <= ShenandoahPacingCycleSlack fl <= 100 ->
  available h * ShenandoahPacingCycleSlack fl <= LP64.max_uintx ->
  non_taxable_of fl h =
    available h * ShenandoahPacingCycleSlack fl / 100 /\
  taxable_of fl h =
    available h - available h * ShenandoahPacingCycleSlack fl / 100.
Proof.
  intros Hf Hs Hwrap. apply size_t_bounds in Hf.
  unfold LP64.max_uintx, LP64.BitsPerWord in Hwrap.
  unfold taxable_of, non_taxable_of, LP64.to_size_t, LP64.BitsPerWord.
  rewrite (Z.mod_small (available h * _)) by nia.
  split; [reflexivity|]. apply Z.mod_small.
  assert (0 <= available h * ShenandoahPacingCycleSlack fl / 100 <= available h).
  { split; [apply Z.div_pos; nia|].
    apply Z.div_le_upper_bound; nia. }
  lia.
Qed.

(** C6. Without wrap-around and with taxable space left, [setup_for_mark]
    works with the allowance [free * slack / 100] and the taxable space
    [free - allowance]: its budget is that allowance at the tax rate it
    installs, and this rate is the double computed from the used and the
    taxable space, within [2^-50] of [max (1, 3 * used / taxable) * 1.1]
    taken exactly. For 90 MB used and 10 MB free at 10 percent the
    allowance is 1 MB, the taxable space 9 MB and the rate the double 33. *)
Theorem setup_for_mark_tax :
  forall (env : schedule) (h : heap) (p : pacer),
    LP64.is_size_t (used h) ->
    LP64.is_size_t (available h) ->
    0 <= ShenandoahPacingCycleSlack fl <= 100 ->
    available h * ShenandoahPacingCycleSlack fl <= LP64.max_uintx ->
    let non_taxable := available h * ShenandoahPacingCycleSlack fl / 100 in
    let taxable := available h - non_taxable in
    0 < taxable ->
    let p' := setup_for_mark fl env h p in
    non_taxable_of fl h = non_taxable /\
    taxable_of fl h = taxable /\
    budget p' = allowance_budget non_taxable (tax_rate p') /\
    tax_rate p' =
      mul (MAX2_double d1_0
             (mul (div (mul d1_0 (of_Z (used h))) (of_Z taxable)) d3_0))
          d1_1 /\
    within tax_lo tax_hi (value (tax_rate p'))
           (mark_tax_exact (used h) taxable) /\
    (forall (idle delay l c : Z),
        let MB := 1024 * 1024 in
        let f := mkFlags 10 idle delay in
        let h' := mkHeap (90 * MB) (10 * MB) l c in
        non_taxable_of f h' = 1 * MB /\
        taxable_of f h' = 9 * MB /\
        tax_rate (setup_for_mark f env h' p) = of_Z 33).
Proof.
  intros env h p Hu Hf Hs Hwrap non_taxable taxable Ht p'.
  destruct (cycle_allowance h Hf Hs Hwrap) as [Hnt Htx].
  fold non_taxable in Hnt. fold non_taxable taxable in Htx.
  assert (Hrate : tax_rate p' =
            mul (MAX2_double d1_0
                   (mul (div (mul d1_0 (of_Z (used h))) (of_Z taxable)) d3_0))
                d1_1).
  { unfold p', setup_for_mark, restart_with, set_tax_rate.
    cbn [tax_rate]. fold (non_taxable_of fl h). fold (taxable_of fl h).
    now rewrite Htx. }
  split; [exact Hnt|]. split; [exact Htx|]. split; [|split; [exact Hrate|split]].
  - unfold p', setup_for_mark. fold (non_taxable_of fl h). cbv zeta.
    unfold non_taxable_of.
    match goal with |- context [restart_with env _ ?r p] =>
      destruct (setup_budget env
                  (available h * ShenandoahPacingCycleSlack fl) r p)
        as (Hb & Hr & _) end.
    rewrite Hb, Hr. fold (non_taxable_of fl h). now rewrite Hnt.
  - rewrite Hrate. unfold mark_tax_exact.
    apply size_t_bounds in Hu.
    pose proof (taxable_bounds h) as Hb. rewrite Htx in Hb.
    apply (phase_tax_within (used h) taxable 3); lia.
  - intros idle delay l c. cbv zeta.
    unfold setup_for_mark, restart_with, set_tax_rate. cbn [tax_rate].
    vm_compute. repeat split; reflexivity.
Qed.

(** C7. Each setup leaves as budget its allowance times the tax rate it
    installs, truncated to a byte count and shifted right by
    [LogHeapWordSize], and leaves the histogram alone. [setup_for_idle]
    installs rate [1.0], and while the allowance stays below 2^53 bytes
    its budget is the allowance in heap words: 10 MB of a capacity of
    1000 MB at 1 percent. *)
Theorem setup_installs_allowance_budget :
  forall (env : schedule) (h : heap) (p : pacer),
    0 <= capacity h ->
    0 <= ShenandoahPacingIdleSlack fl ->
    capacity h * ShenandoahPacingIdleSlack fl <= LP64.max_uintx ->
    capacity h * ShenandoahPacingIdleSlack fl / 100 < 2 ^ 53 ->
    (let p' := setup_for_mark fl env h p in
     budget p' = allowance_budget (non_taxable_of fl h) (tax_rate p') /\
     delays p' = delays p) /\
    (let p' := setup_for_evac fl env h p in
     budget p' = allowance_budget (non_taxable_of fl h) (tax_rate p') /\
     delays p' = delays p) /\
    (let p' := setup_for_updaterefs fl env h p in
     budget p' = allowance_budget (non_taxable_of fl h) (tax_rate p') /\
     delays p' = delays p) /\
    (let p' := setup_for_idle fl env h p in
     let initial := capacity h * ShenandoahPacingIdleSlack fl / 100 in
     budget p' = allowance_budget initial (tax_rate p') /\
     tax_rate p' = d1_0 /\
     budget p' = Z.shiftr initial LP64.LogHeapWordSize /\
     delays p' = delays p) /\
    (forall (cycle delay : Z) (u a l : Z),
        let MB := 1024 * 1024 in
        let p' := setup_for_idle (mkFlags cycle 1 delay) env
                                 (mkHeap u a l (1000 * MB)) p in
        budget p' = Z.shiftr (10 * MB) LP64.LogHeapWordSize /\
        tax_rate p' = d1_0).
Proof.
  intros env h p Hc Hs Hwrap Hsmall.
  unfold setup_for_mark, setup_for_evac, setup_for_updaterefs,
    setup_for_idle, non_taxable_of.
  split; [|split; [|split; [|split]]].
  - cbv zeta. match goal with |- context [restart_with env _ ?r p] =>
      destruct (setup_budget env (available h * ShenandoahPacingCycleSlack fl) r p)
        as (Hb & Hr & Hd) end.
    rewrite Hb, Hr. split; [reflexivity | exact Hd].
  - cbv zeta. match goal with |- context [restart_with env _ ?r p] =>
      destruct (setup_budget env (available h * ShenandoahPacingCycleSlack fl) r p)
        as (Hb & Hr & Hd) end.
    rewrite Hb, Hr. split; [reflexivity | exact Hd].
  - cbv zeta. match goal with |- context [restart_with env _ ?r p] =>
      destruct (setup_budget env (available h * ShenandoahPacingCycleSlack fl) r p)
        as (Hb & Hr & Hd) end.
    rewrite Hb, Hr. split; [reflexivity | exact Hd].
  - cbv zeta.
    destruct (setup_budget env (capacity h * ShenandoahPacingIdleSlack fl) d1_0 p)
      as (Hb & Hr & Hd).
    assert (Hsz : LP64.to_size_t (capacity h * ShenandoahPacingIdleSlack fl) =
                  capacity h * ShenandoahPacingIdleSlack fl).
    { unfold LP64.to_size_t. apply Z.mod_small.
      unfold LP64.max_uintx, LP64.BitsPerWord in *. nia. }
    rewrite Hsz in *. rewrite Hb, Hr.
    repeat split; try assumption.
    unfold allowance_budget. rewrite unit_rate_exact; [reflexivity|].
    split; [apply Z.div_pos; nia | assumption].
  - intros cycle delay u a l. cbv zeta. unfold setup_for_idle.
    rewrite restart_with_store. vm_compute. split; reflexivity.
Qed.

End PacerFacts.

(** * The theorems at work *)

Import Examples.

Lemma pace_for_alloc_bounded_wait_witness :
  0 <= ShenandoahPacingMaxDelay fl /\
  deadline_passes (H := x86_64) fl (of_Z 0) ticks /\
  steady (H := x86_64) 8 0 (of_Z 0) ticks /\
  exists out p',
    pace_for_alloc (H := x86_64) fl [] (of_Z 0) ticks 1000 p0 = Some (out, p') /\
    (fst (claim_for_alloc (H := x86_64) [] 1000 false p0) = true ->
     out = FastPath) /\
    match out with
    | FastPath => fst (claim_for_alloc (H := x86_64) [] 1000 false p0) = true
    | Claimed ms => ms <= ShenandoahPacingMaxDelay fl
    | TimedOut ms =>
        ShenandoahPacingMaxDelay fl < ms <= ShenandoahPacingMaxDelay fl + 8
    end.
Proof.
  assert (H1 : 0 <= ShenandoahPacingMaxDelay fl) by (simpl; lia).
  assert (H2 : deadline_passes (H := x86_64) fl (of_Z 0) ticks)
    by (apply Exists_cons_tl, Exists_cons_hd; vm_compute; reflexivity).
  assert (H3 : steady (H := x86_64) 8 0 (of_Z 0) ticks)
    by (vm_compute; repeat split; discriminate).
  split; [exact H1|]. split; [exact H2|]. split; [exact H3|].
  exact (pace_for_alloc_bounded_wait (H := x86_64) fl [] (of_Z 0) ticks 1000
           p0 8 H1 H2 H3).
Defined.

Lemma phase_tax_at_least_surcharge_witness :
  LP64.is_size_t (used hp) /\
  LP64.is_size_t (live_data hp) /\
  0 < taxable_of fl hp /\
  ge (tax_rate (setup_for_mark (H := x86_64) fl [] hp p0)) d1_1 = true /\
  ge (tax_rate (setup_for_evac (H := x86_64) fl [] hp p0)) d1_1 = true /\
  ge (tax_rate (setup_for_updaterefs (H := x86_64) fl [] hp p0)) d1_1 = true /\
  tax_rate (setup_for_idle (H := x86_64) fl [] hp p0) = d1_0.
Proof.
  assert (H1 : LP64.is_size_t (used hp)) by (vm_compute; split; discriminate).
  assert (H2 : LP64.is_size_t (live_data hp))
    by (vm_compute; split; discriminate).
  assert (H3 : 0 < taxable_of fl hp) by (vm_compute; reflexivity).
  split; [exact H1|]. split; [exact H2|]. split; [exact H3|].
  exact (phase_tax_at_least_surcharge (H := x86_64) fl [] hp p0 H1 H2 H3).
Defined.

Lemma setup_for_mark_tax_witness :
  LP64.is_size_t (used hp) /\
  LP64.is_size_t (available hp) /\
  0 <= ShenandoahPacingCycleSlack fl <= 100 /\
  available hp * ShenandoahPacingCycleSlack fl <= LP64.max_uintx /\
  0 < available hp - available hp * ShenandoahPacingCycleSlack fl / 100 /\
  tax_rate (setup_for_mark (H := x86_64) fl [] hp p0) = of_Z 33 /\
  within tax_lo tax_hi
         (value (tax_rate (setup_for_mark (H := x86_64) fl [] hp p0)))
         (mark_tax_exact (90 * MB) (9 * MB)).
Proof.
  assert (H1 : LP64.is_size_t (used hp)) by (vm_compute; split; discriminate).
  assert (H2 : LP64.is_size_t (available hp))
    by (vm_compute; split; discriminate).
  assert (H3 : 0 <= ShenandoahPacingCycleSlack fl <= 100) by (simpl; lia).
  assert (H4 : available hp * ShenandoahPacingCycleSlack fl <= LP64.max_uintx)
    by (vm_compute; discriminate).
  assert (H5 : 0 < available hp -
                   available hp * ShenandoahPacingCycleSlack fl / 100)
    by (vm_compute; reflexivity).
  split; [exact H1|]. split; [exact H2|]. split; [exact H3|].
  split; [exact H4|]. split; [exact H5|].
  pose proof (setup_for_mark_tax (H := x86_64) fl [] hp p0 H1 H2 H3 H4 H5)
    as (_ & _ & _ & _ & Hw & Hex).
  split; [|exact Hw].
  exact (proj2 (proj2 (Hex 1 10 (45 * MB) (1000 * MB)))).
Defined.

Lemma setup_installs_allowance_budget_witness :
  0 <= capacity hp /\
  0 <= ShenandoahPacingIdleSlack fl /\
  capacity hp * ShenandoahPacingIdleSlack fl <= LP64.max_uintx /\
  capacity hp * ShenandoahPacingIdleSlack fl / 100 < 2 ^ 53 /\
  budget (setup_for_idle (H := x86_64) fl [] hp p0) =
    Z.shiftr (capacity hp * ShenandoahPacingIdleSlack fl / 100)
             LP64.LogHeapWordSize /\
  tax_rate (setup_for_idle (H := x86_64) fl [] hp p0) = d1_0.
Proof.
  assert (H1 : 0 <= capacity hp) by (vm_compute; discriminate).
  assert (H2 : 0 <= ShenandoahPacingIdleSlack fl) by (simpl; lia).
  assert (H3 : capacity hp * ShenandoahPacingIdleSlack fl <= LP64.max_uintx)
    by (vm_compute; discriminate).
  assert (H4 : capacity hp * ShenandoahPacingIdleSlack fl / 100 < 2 ^ 53)
    by (vm_compute; reflexivity).
  split; [exact H1|]. split; [exact H2|]. split; [exact H3|].
  split; [exact H4|].
  pose proof (setup_installs_allowance_budget (H := x86_64) fl [] hp p0
                H1 H2 H3 H4) as (_ & _ & _ & (_ & Hr & Hb & _) & _).
  split; [exact Hb | exact Hr].
Defined.

Lemma depleted_budget_refuses_claims_witness :
  budget broke <= 0 /\
  Forall (fun c : schedule * Z * bool => snd c = false)
         [([], 0, false); ([], 7, false)] /\
  claim_all (H := x86_64) [([], 0, false); ([], 7, false)] broke =
    ([false; false], broke).
Proof.
  assert (H1 : budget broke <= 0) by (simpl; lia).
  assert (H2 : Forall (fun c : schedule * Z * bool => snd c = false)
                      [([], 0, false); ([], 7, false)])
    by (repeat constructor).
  split; [exact H1|]. split; [exact H2|].
  exact (proj2 (proj2 (depleted_budget_refuses_claims (H := x86_64)
                         [([], 0, false); ([], 7, false)] broke H1 H2))).
Defined.

Lemma pace_for_alloc_records_slow_path_only_witness :
  let p' := mkPacer 500 d1_0 (histogram_add 15 histogram_empty) in
  pace_for_alloc (H := x86_64) fl [] (of_Z 0) ticks 1000 p0 =
    Some (TimedOut 15, p') /\
  delays p' = histogram_add 15 (delays p0) /\
  (forall c, delays p' c = delays p0 c + (if c =? bucket 15 then 1 else 0)).
Proof.
  intros p'.
  assert (H1 : pace_for_alloc (H := x86_64) fl [] (of_Z 0) ticks 1000 p0 =
               Some (TimedOut 15, p')) by (vm_compute; reflexivity).
  split; [exact H1|].
  pose proof (pace_for_alloc_records_slow_path_only (H := x86_64) fl []
                (of_Z 0) ticks 1000 p0 p' (TimedOut 15) H1)
    as (_ & Hd & Hc & _).
  split; [exact Hd | exact Hc].
Defined.

(** * Further properties *)

Section MoreFacts.

Context `{Platform}.
Variable fl : flags.

(** ** Runs of claims *)

Lemma claim_for_alloc_quiet (words : Z) (force : bool) (p : pacer) :
  claim_for_alloc [] words force p =
  if budget p <? claim_tax words (tax_rate p) then (false, p)
  else (true, set_budget (budget p - claim_tax words (tax_rate p)) p).
Proof.
  unfold claim_for_alloc. rewrite claim_loop_quiet.
  destruct (budget p <? claim_tax words (tax_rate p)).
  - now rewrite set_budget_same.
  - reflexivity.
Qed.

(** X1. A run of undisturbed claims gives one answer per claim and takes
    from the budget exactly the costs of the claims that succeeded; it
    leaves the tax rate and the histogram alone, and a budget that was not
    negative stays so and never grows. *)
Theorem claim_all_accounts :
  forall (calls : list (schedule * Z * bool)) (p : pacer),
    undisturbed calls ->
    let r := claim_all calls p in
    length (fst r) = length calls /\
    budget (snd r) = budget p - spent (tax_rate p) calls (fst r) /\
    tax_rate (snd r) = tax_rate p /\
    delays (snd r) = delays p /\
    (0 <= budget p -> 0 <= budget (snd r) <= budget p).
Proof.
  induction calls as [|[[env words] force] calls IH]; intros p Hq.
  - cbn. repeat split; lia.
  - inversion Hq as [|c cs Hhd Htl]; subst. cbn [fst] in Hhd. subst env.
    cbn [claim_all]. rewrite claim_for_alloc_quiet.
    pose proof (claim_tax_positive words (tax_rate p)) as Hcost.
    destruct (Z.ltb_spec (budget p) (claim_tax words (tax_rate p))) as [Hlt|Hge].
    + specialize (IH p Htl). cbv zeta in IH.
      destruct (claim_all calls p) as [oks p2]. cbn [fst snd] in *.
      destruct IH as (Hlen & Hb & Ht & Hd & Hpos).
      cbn [length spent]. repeat split; try assumption; lia.
    + specialize (IH (set_budget (budget p - claim_tax words (tax_rate p)) p) Htl).
      cbv zeta in IH.
      destruct (claim_all calls
                  (set_budget (budget p - claim_tax words (tax_rate p)) p))
        as [oks p2].
      cbn [fst snd set_budget budget tax_rate delays] in *.
      destruct IH as (Hlen & Hb & Ht & Hd & Hpos).
      cbn [length spent]. repeat split; try assumption; lia.
Qed.

(** ** The budget a setup installs *)

(** X2. Whatever the heap reports, whatever the tax rate computed from it
    (an infinity and a NaN included) and whatever the state before,
    [restart_with] and the four setups install a budget between 0 and
    2^61 - 1 words. *)
Theorem installed_budget_range :
  (forall (env : schedule) (nt : Z) (rate : double) (p : pacer),
      0 <= budget (restart_with env nt rate p) < 2 ^ 61) /\
  (forall (env : schedule) (h : heap) (p : pacer),
      0 <= budget (setup_for_mark fl env h p) < 2 ^ 61 /\
      0 <= budget (setup_for_evac fl env h p) < 2 ^ 61 /\
      0 <= budget (setup_for_updaterefs fl env h p) < 2 ^ 61 /\
      0 <= budget (setup_for_idle fl env h p) < 2 ^ 61).
Proof.
  assert (Hr : forall env nt rate p,
             0 <= budget (restart_with env nt rate p) < 2 ^ 61).
  { intros env nt rate p. rewrite restart_with_store. unfold restart_store.
    cbn [budget]. rewrite initial_budget_allowance. unfold allowance_budget.
    pose proof (to_size_t_range (mul (of_Z nt) rate)) as Hs.
    rewrite Z.shiftr_div_pow2 by (unfold LP64.LogHeapWordSize; lia).
    unfold LP64.LogHeapWordSize. split; [apply Z.div_pos; lia|].
    apply Z.div_lt_upper_bound; lia. }
  split; [exact Hr|]. intros env h p.
  unfold setup_for_mark, setup_for_evac, setup_for_updaterefs, setup_for_idle.
  repeat split; apply Hr.
Qed.

(** ** Claims at the idle rate *)

Lemma unit_rate_cost (a : Z) :
  0 <= a < 2 ^ 53 -> to_intptr (mul (of_Z a) d1_0) = a.
Proof.
  intros Ha. destruct (Z.eq_dec a 0) as [-> | Hnz]; [reflexivity|].
  destruct (of_Z_exact a ltac:(lia)) as (m & e & -> & Hm & He & Hval).
  rewrite mul_one_r by lia.
  unfold to_intptr, trunc.
  rewrite Z.shiftl_div_pow2, Hval, Z.div_mul by lia.
  destruct (Z.leb_spec LP64.min_intptr a) as [|Hlt].
  - destruct (Z.leb_spec a LP64.max_intptr) as [|Hgt]; [reflexivity|].
    unfold LP64.max_intptr, LP64.BitsPerWord in Hgt. lia.
  - unfold LP64.min_intptr, LP64.BitsPerWord in Hlt. lia.
Qed.

Lemma idle_state (env : schedule) (h : heap) (p : pacer) :
  0 <= capacity h ->
  0 <= ShenandoahPacingIdleSlack fl ->
  capacity h * ShenandoahPacingIdleSlack fl <= LP64.max_uintx ->
  capacity h * ShenandoahPacingIdleSlack fl / 100 < 2 ^ 53 ->
  setup_for_idle fl env h p =
  mkPacer (Z.shiftr (capacity h * ShenandoahPacingIdleSlack fl / 100)
                    LP64.LogHeapWordSize)
          d1_0 (delays p).
Proof.
  intros Hc Hs Hwrap Hsmall. unfold setup_for_idle.
  rewrite restart_with_store. unfold restart_store.
  rewrite allowance_is_jlong, initial_budget_allowance.
  unfold allowance_budget, LP64.to_size_t.
  rewrite Z.mod_small
    by (unfold LP64.max_uintx, LP64.BitsPerWord in *; nia).
  rewrite unit_rate_exact; [reflexivity|].
  split; [apply Z.div_pos; nia | assumption].
Qed.

(** X3. At the rate 1.0 that [setup_for_idle] installs a claim of fewer
    than 2^53 words costs these words, and 1 for none; so right after an
    idle setup an undisturbed claim succeeds exactly when the idle
    allowance in words covers this cost, and takes it. *)
Theorem idle_claim_costs_words :
  forall (env : schedule) (h : heap) (p : pacer) (words : Z) (force : bool),
    0 <= capacity h ->
    0 <= ShenandoahPacingIdleSlack fl ->
    capacity h * ShenandoahPacingIdleSlack fl <= LP64.max_uintx ->
    capacity h * ShenandoahPacingIdleSlack fl / 100 < 2 ^ 53 ->
    0 <= words < 2 ^ 53 ->
    let idle := setup_for_idle fl env h p in
    let allowance :=
      Z.shiftr (capacity h * ShenandoahPacingIdleSlack fl / 100)
               LP64.LogHeapWordSize in
    claim_tax words (tax_rate idle) = Z.max 1 words /\
    claim_for_alloc [] words force idle =
    if allowance <? Z.max 1 words then (false, idle)
    else (true, mkPacer (allowance - Z.max 1 words) d1_0 (delays p)).
Proof.
  intros env h p words force Hc Hs Hwrap Hsmall Hw idle allowance.
  pose proof (idle_state env h p Hc Hs Hwrap Hsmall) as Hidle.
  fold idle allowance in Hidle. rewrite Hidle. cbn [tax_rate].
  assert (Hcost : claim_tax words d1_0 = Z.max 1 words).
  { unfold claim_tax.
    rewrite MAX2_intptr_max, unit_rate_cost by assumption. reflexivity. }
  split; [exact Hcost|].
  rewrite claim_for_alloc_quiet. cbn [budget tax_rate]. rewrite Hcost.
  destruct (allowance <? Z.max 1 words); reflexivity.
Qed.

(** ** The tax of the later phases *)

(** X4. Without wrap-around and with taxable space left,
    [setup_for_evac] installs as budget the allowance [free * slack / 100]
    at the tax rate it installs, and this rate is the double computed from
    the live data of the collection set and the taxable space [free - allowance], within [2^-50]
    of [max (1, 2 * live / taxable) * 1.1] taken exactly. *)
Theorem setup_for_evac_tax :
  forall (env : schedule) (h : heap) (p : pacer),
    LP64.is_size_t (live_data h) ->
    LP64.is_size_t (available h) ->
    0 <= ShenandoahPacingCycleSlack fl <= 100 ->
    available h * ShenandoahPacingCycleSlack fl <= LP64.max_uintx ->
    let non_taxable := available h * ShenandoahPacingCycleSlack fl / 100 in
    let taxable := available h - non_taxable in
    0 < taxable ->
    let p' := setup_for_evac fl env h p in
    budget p' = allowance_budget non_taxable (tax_rate p') /\
    tax_rate p' =
      mul (MAX2_double d1_0
             (mul (div (mul d1_0 (of_Z (live_data h))) (of_Z taxable)) d2_0))
          d1_1 /\
    within tax_lo tax_hi (value (tax_rate p'))
           (Qmax 1 (2 * inject_Z (live_data h) / inject_Z taxable)
            * (11 # 10))%Q /\
    delays p' = delays p.
Proof.
  intros env h p Hu Hf Hs Hwrap non_taxable taxable Ht p'.
  destruct (cycle_allowance fl h Hf Hs Hwrap) as [Hnt Htx].
  fold non_taxable in Hnt. fold non_taxable taxable in Htx.
  assert (Hrate : tax_rate p' =
            mul (MAX2_double d1_0
                   (mul (div (mul d1_0 (of_Z (live_data h))) (of_Z taxable))
                        d2_0))
                d1_1).
  { unfold p', setup_for_evac, restart_with, set_tax_rate.
    cbn [tax_rate]. fold (non_taxable_of fl h). fold (taxable_of fl h).
    now rewrite Htx. }
  assert (Hsetup : budget p' = allowance_budget non_taxable (tax_rate p') /\
                   delays p' = delays p).
  { unfold p', setup_for_evac. cbv zeta.
    match goal with |- context [restart_with env _ ?r p] =>
      destruct (setup_budget env
                  (available h * ShenandoahPacingCycleSlack fl) r p)
        as (Hb & Hr & Hd) end.
    rewrite Hb, Hr. fold (non_taxable_of fl h). rewrite Hnt.
    split; [reflexivity | exact Hd]. }
  destruct Hsetup as [Hbudget Hdelays].
  split; [exact Hbudget|]. split; [exact Hrate|]. split; [|exact Hdelays].
  rewrite Hrate. apply size_t_bounds in Hu.
  pose proof (taxable_bounds fl h) as Hb. rewrite Htx in Hb.
  apply (phase_tax_within (live_data h) taxable 2); lia.
Qed.

(** X5. Without wrap-around and with taxable space left,
    [setup_for_updaterefs] installs as budget the allowance [free * slack / 100]
    at the tax rate it installs, and this rate is the double computed from
    the used space and the taxable space [free - allowance], within [2^-50]
    of [max (1, used / taxable) * 1.1] taken exactly. *)
Theorem setup_for_updaterefs_tax :
  forall (env : schedule) (h : heap) (p : pacer),
    LP64.is_size_t (used h) ->
    LP64.is_size_t (available h) ->
    0 <= ShenandoahPacingCycleSlack fl <= 100 ->
    available h * ShenandoahPacingCycleSlack fl <= LP64.max_uintx ->
    let non_taxable := available h * ShenandoahPacingCycleSlack fl / 100 in
    let taxable := available h - non_taxable in
    0 < taxable ->
    let p' := setup_for_updaterefs fl env h p in
    budget p' = allowance_budget non_taxable (tax_rate p') /\
    tax_rate p' =
      mul (MAX2_double d1_0
             (mul (div (mul d1_0 (of_Z (used h))) (of_Z taxable)) d1_0))
          d1_1 /\
    within tax_lo tax_hi (value (tax_rate p'))
           (Qmax 1 (1 * inject_Z (used h) / inject_Z taxable)
            * (11 # 10))%Q /\
    delays p' = delays p.
Proof.
  intros env h p Hu Hf Hs Hwrap non_taxable taxable Ht p'.
  destruct (cycle_allowance fl h Hf Hs Hwrap) as [Hnt Htx].
  fold non_taxable in Hnt. fold non_taxable taxable in Htx.
  assert (Hrate : tax_rate p' =
            mul (MAX2_double d1_0
                   (mul (div (mul d1_0 (of_Z (used h))) (of_Z taxable))
                        d1_0))
                d1_1).
  { unfold p', setup_for_updaterefs, restart_with, set_tax_rate.
    cbn [tax_rate]. fold (non_taxable_of fl h). fold (taxable_of fl h).
    now rewrite Htx. }
  assert (Hsetup : budget p' = allowance_budget non_taxable (tax_rate p') /\
                   delays p' = delays p).
  { unfold p', setup_for_updaterefs. cbv zeta.
    match goal with |- context [restart_with env _ ?r p] =>
      destruct (setup_budget env
                  (available h * ShenandoahPacingCycleSlack fl) r p)
        as (Hb & Hr & Hd) end.
    rewrite Hb, Hr. fold (non_taxable_of fl h). rewrite Hnt.
    split; [reflexivity | exact Hd]. }
  destruct Hsetup as [Hbudget Hdelays].
  split; [exact Hbudget|]. split; [exact Hrate|]. split; [|exact Hdelays].
  rewrite Hrate. apply size_t_bounds in Hu.
  pose proof (taxable_bounds fl h) as Hb. rewrite Htx in Hb.
  apply (phase_tax_within (used h) taxable 1); lia.
Qed.

(** ** No taxable space *)

Lemma phase_tax_no_taxable (work share : Z) :
  0 <= work < 2 ^ 64 -> 1 <= share <= 3 ->
  mul (MAX2_double d1_0
         (mul (div (mul d1_0 (of_Z work)) (of_Z 0)) (of_Z share)))
      d1_1 =
  if work =? 0 then S754_nan else S754_infinity false.
Proof.
  intros Hw Hs.
  destruct (share_normal share Hs) as (ms & es & -> & _).
  destruct (Z.eqb_spec work 0) as [-> | Hnz]; [reflexivity|].
  destruct (mul_pos_normal _ _ _ _ _ _ (share_normal 1 ltac:(lia))
              (of_Z_normal work ltac:(lia)) ltac:(lia) ltac:(lia))
    as (m & e & Heq & _).
  change (of_Z 1) with d1_0 in Heq. rewrite Heq. reflexivity.
Qed.

(** X6. The division by the taxable space is not guarded: when none is
    left, the three cycle setups install the tax rate +infinity, and a NaN
    when moreover nothing is used (or live); the NaN is not at least 1.1. *)
Theorem no_taxable_space_tax :
  forall (env : schedule) (h : heap) (p : pacer),
    LP64.is_size_t (used h) ->
    LP64.is_size_t (live_data h) ->
    taxable_of fl h = 0 ->
    tax_rate (setup_for_mark fl env h p) =
      (if used h =? 0 then S754_nan else S754_infinity false) /\
    tax_rate (setup_for_evac fl env h p) =
      (if live_data h =? 0 then S754_nan else S754_infinity false) /\
    tax_rate (setup_for_updaterefs fl env h p) =
      (if used h =? 0 then S754_nan else S754_infinity false) /\
    (used h = 0 -> ge (tax_rate (setup_for_mark fl env h p)) d1_1 = false).
Proof.
  intros env h p Hu Hl Ht.
  apply size_t_bounds in Hu. apply size_t_bounds in Hl.
  assert (Hm : tax_rate (setup_for_mark fl env h p) =
               if used h =? 0 then S754_nan else S754_infinity false).
  { unfold setup_for_mark, restart_with, set_tax_rate. cbn [tax_rate].
    fold (non_taxable_of fl h). fold (taxable_of fl h). rewrite Ht.
    apply (phase_tax_no_taxable (used h) 3); lia. }
  split; [exact Hm|]. split; [|split].
  - unfold setup_for_evac, restart_with, set_tax_rate. cbn [tax_rate].
    fold (non_taxable_of fl h). fold (taxable_of fl h). rewrite Ht.
    apply (phase_tax_no_taxable (live_data h) 2); lia.
  - unfold setup_for_updaterefs, restart_with, set_tax_rate. cbn [tax_rate].
    fold (non_taxable_of fl h). fold (taxable_of fl h). rewrite Ht.
    apply (phase_tax_no_taxable (used h) 1); lia.
  - intros Hz. rewrite Hm, Hz. reflexivity.
Qed.

(** ** Setups and what came before *)

(** X9. A setup forgets the claims made before it: the state it leaves is
    the one it would leave had no claim been made, whatever the claims and
    the interference they met. *)
Theorem setup_forgets_claims :
  forall (calls : list (schedule * Z * bool)) (env env' : schedule)
         (h : heap) (p : pacer),
    let after := snd (claim_all calls p) in
    setup_for_mark fl env h after = setup_for_mark fl env' h p /\
    setup_for_evac fl env h after = setup_for_evac fl env' h p /\
    setup_for_updaterefs fl env h after = setup_for_updaterefs fl env' h p /\
    setup_for_idle fl env h after = setup_for_idle fl env' h p.
Proof.
  intros calls env env' h p after.
  assert (Hd : delays after = delays p).
  { unfold after. clear. revert p.
    induction calls as [|[[e w] f] calls IH]; intros p; [reflexivity|].
    cbn [claim_all].
    pose proof (claim_for_alloc_frame e w f p) as [_ Hf].
    destruct (claim_for_alloc e w f p) as [ok p1].
    specialize (IH p1). destruct (claim_all calls p1) as [oks p2].
    cbn [snd] in *. congruence. }
  unfold setup_for_mark, setup_for_evac, setup_for_updaterefs, setup_for_idle.
  rewrite !restart_with_store. unfold restart_store. rewrite Hd.
  repeat split.
Qed.

(** ** The size of the budget *)

(** Truncation takes the integer part of the value. *)
Lemma to_size_t_floor (m : positive) (e : Z) :
  (value (S754_finite false m e) < inject_Z (2 ^ 64))%Q ->
  (inject_Z (to_size_t (S754_finite false m e)) <=
   value (S754_finite false m e) /\
   value (S754_finite false m e) <
   inject_Z (to_size_t (S754_finite false m e)) + 1)%Q.
Proof.
  intros Hlt. rewrite value_finite in *.
  assert (Hfloor : (inject_Z (Z.shiftl (Zpos m) e) <= inject_Z (Zpos m) * Q2 e /\
                    inject_Z (Zpos m) * Q2 e <
                    inject_Z (Z.shiftl (Zpos m) e) + 1)%Q).
  { destruct (Z.le_gt_cases 0 e) as [He | He].
    - rewrite Z.shiftl_mul_pow2, inject_Z_mult, (Q2_Z e) by lia.
      split; lra.
    - rewrite Z.shiftl_div_pow2 by lia.
      pose proof (pow2_pos (- e) ltac:(lia)) as Hk.
      pose proof (Z.div_mod (Zpos m) (2 ^ (- e)) ltac:(lia)) as Hdm.
      pose proof (Z.mod_pos_bound (Zpos m) (2 ^ (- e)) Hk) as Hrem.
      set (z := Zpos m / 2 ^ (- e)) in *.
      assert (Hz : 2 ^ (- e) * z <= Zpos m < 2 ^ (- e) * (z + 1)) by lia.
      destruct Hz as [Hz1 Hz2].
      rewrite Zle_Qle, inject_Z_mult in Hz1.
      rewrite Zlt_Qlt, inject_Z_mult, inject_Z_plus in Hz2.
      change (inject_Z 1) with 1%Q in Hz2.
      rewrite <- (Q2_Z (- e)) in Hz1, Hz2 by lia.
      assert (Hinv : (Q2 (- e) * Q2 e == 1)%Q).
      { rewrite <- Q2_add. replace (- e + e) with 0 by lia. reflexivity. }
      pose proof (Q2_pos e) as Hpe. pose proof (Q2_pos (- e)) as Hpk.
      set (K := Q2 (- e)) in *. set (E := Q2 e) in *.
      set (M := inject_Z (Zpos m)) in *. set (Zq := inject_Z z) in *.
      clearbody K E M Zq.
      assert (HM : (M == M * E * K)%Q) by (rewrite <- Qmult_assoc, (Qmult_comm E K), Hinv; ring).
      split; nra. }
  assert (Hnn : 0 <= Z.shiftl (Zpos m) e) by (apply Z.shiftl_nonneg; lia).
  assert (Hsmall : Z.shiftl (Zpos m) e < 2 ^ 64).
  { rewrite Zlt_Qlt. destruct Hfloor as [Hf _]. lra. }
  unfold to_size_t, trunc.
  destruct (Z.leb_spec 0 (Z.shiftl (Zpos m) e)); [|lia].
  destruct (Z.leb_spec (Z.shiftl (Zpos m) e) LP64.max_uintx) as [|Hgt];
    [exact Hfloor|].
  unfold LP64.max_uintx, LP64.BitsPerWord in Hgt. lia.
Qed.

(** X12. The budget that [restart_with] installs is the allowance times
    the tax rate, in bytes and up to two roundings and the lost fraction of
    a heap word: for a positive allowance and a positive normal rate whose
    product stays below 2^64, eight times the budget is at most the product
    scaled by [(1 + 2^-53)^2] and more than the product scaled by
    [(1 - 2^-53)^2] less 8. *)
Theorem restart_with_budget_bounds :
  forall (env : schedule) (nt : Z) (rate : double) (p : pacer),
    0 < nt < 2 ^ 63 ->
    pos_normal (-1022) 900 rate ->
    (ulp_hi * ulp_hi * (inject_Z nt * value rate) < inject_Z (2 ^ 64))%Q ->
    let b := budget (restart_with env nt rate p) in
    (inject_Z (8 * b) <= ulp_hi * ulp_hi * (inject_Z nt * value rate) /\
     ulp_lo * ulp_lo * (inject_Z nt * value rate) - 8 < inject_Z (8 * b))%Q.
Proof.
  intros env nt rate p Hnt Hrate Hfit b.
  assert (Hb : b = to_size_t (mul (of_Z nt) rate) / 8).
  { unfold b. rewrite restart_with_store. unfold restart_store. cbn [budget].
    rewrite initial_budget_allowance. unfold allowance_budget.
    now rewrite Z.shiftr_div_pow2 by (unfold LP64.LogHeapWordSize; lia). }
  assert (Tr : tracks 1 1 (-1022) 900 rate (value rate)).
  { split; [exact Hrate|]. destruct Hrate as (m & e & -> & _).
    split; [apply value_pos | apply within_refl]. }
  pose proof (mul_tracks ulp_lo ulp_hi 1 1 (-52) 12 (-1022) 900 _ _ _ _
                ulp_lo_pos ltac:(closedQ) ltac:(lia) ltac:(lia)
                (of_Z_tracks nt ltac:(lia)) Tr) as (Hn & Hpos & [Hlo Hhi]).
  destruct Hn as (m & e & Heq & _). rewrite Heq in *.
  set (P := (inject_Z nt * value rate)%Q) in *. clearbody P.
  unfold ulp_lo, ulp_hi in *.
  assert (Hlt : (value (S754_finite false m e) < inject_Z (2 ^ 64))%Q) by lra.
  destruct (to_size_t_floor m e Hlt) as [Hf1 Hf2].
  set (z := to_size_t (S754_finite false m e)) in *.
  pose proof (Z.div_mod z 8 ltac:(lia)) as Hdm.
  pose proof (Z.mod_pos_bound z 8 ltac:(lia)) as Hrem.
  rewrite <- Hb in Hdm.
  assert (Hz : 8 * b <= z <= 8 * b + 7) by lia.
  destruct Hz as [Hz1 Hz2].
  rewrite Zle_Qle in Hz1. rewrite Zle_Qle, inject_Z_plus in Hz2.
  change (inject_Z 7) with 7%Q in Hz2.
  set (B := inject_Z (8 * b)) in *. set (Zq := inject_Z z) in *.
  set (V := value (S754_finite false m e)) in *.
  clearbody B Zq V.
  split; lra.
Qed.

(** ** Waiting alone *)

Lemma interfere_id (w : Z * double -> Z * double) (p : pacer) :
  (forall s, w s = s) -> interfere w p = p.
Proof. intros Hw. unfold interfere. rewrite Hw. now destruct p. Qed.

Lemma pace_loop_alone (words mw : Z) (start : double) (ticks : list tick) :
  forall (p p' : pacer) (out : pace_exit),
    quiet_world ticks ->
    budget p < claim_tax words (tax_rate p) ->
    pace_loop ticks words mw start p = Some (out, p') ->
    exists ms, out = TimedOut ms /\ mw < ms.
Proof.
  induction ticks as [|t ticks IH]; intros p p' out Hq Hlow Hrun;
    [discriminate|].
  inversion Hq as [|? ? [Hw Hc] Hq']; subst.
  cbn [pace_loop] in Hrun. rewrite (interfere_id _ _ Hw), Hc in Hrun.
  destruct (Z.gtb_spec (elapsed_ms start (now t)) mw) as [Hgt | Hle].
  - destruct (claim_for_alloc [] words true
                (delays_add (elapsed_ms start (now t)) p)) as [ok p1].
    injection Hrun as <- <-. exists (elapsed_ms start (now t)).
    split; [reflexivity | lia].
  - rewrite claim_for_alloc_depleted in Hrun by assumption.
    now apply (IH p p' out).
Qed.

(** X10. Waiting alone does not help: when the first claim fails and no
    other thread touches the budget or the tax rate during the rounds, no
    later claim succeeds, and a call that returns has waited past the
    maximal delay. *)
Theorem pace_for_alloc_alone_times_out :
  forall (start : double) (ticks : list tick) (words : Z) (p p' : pacer)
         (out : pace_exit),
    quiet_world ticks ->
    budget p < claim_tax words (tax_rate p) ->
    pace_for_alloc fl [] start ticks words p = Some (out, p') ->
    exists ms, out = TimedOut ms /\ ShenandoahPacingMaxDelay fl < ms.
Proof.
  intros start ticks words p p' out Hq Hlow Hrun.
  unfold pace_for_alloc in Hrun.
  rewrite claim_for_alloc_depleted in Hrun by assumption.
  now apply (pace_loop_alone words _ start ticks p p' out).
Qed.

(** ** When there is taxable space *)

(** X11. With a slack of at most 100 percent and no wrap-around, the
    taxable space that the cycle setups divide by is positive exactly when
    some space is free and the slack is below 100 percent; it is never
    more than the free space. *)
Theorem taxable_positive_iff :
  forall (h : heap),
    LP64.is_size_t (available h) ->
    0 <= ShenandoahPacingCycleSlack fl <= 100 ->
    available h * ShenandoahPacingCycleSlack fl <= LP64.max_uintx ->
    (0 < taxable_of fl h <->
     0 < available h /\ ShenandoahPacingCycleSlack fl < 100) /\
    0 <= taxable_of fl h <= available h /\
    non_taxable_of fl h + taxable_of fl h = available h.
Proof.
  intros h Hf Hs Hwrap.
  destruct (cycle_allowance fl h Hf Hs Hwrap) as [Hnt Htx].
  apply size_t_bounds in Hf.
  rewrite Hnt, Htx.
  set (free := available h) in *. set (slack := ShenandoahPacingCycleSlack fl) in *.
  clearbody free slack.
  pose proof (Z.div_mod (free * slack) 100 ltac:(lia)) as Hdm.
  pose proof (Z.mod_pos_bound (free * slack) 100 ltac:(lia)) as Hrem.
  set (q := free * slack / 100) in *. set (r := (free * slack) mod 100) in *.
  clearbody q r.
  split; [|split; [nia | lia]].
  split.
  - intros Hpos. split; [nia|].
    destruct (Z.eq_dec slack 100) as [-> | Hne]; [exfalso; lia | lia].
  - intros [Hfree Hlt]. nia.
Qed.

(** ** The end of the wait *)

Lemma pace_loop_stops (words mw : Z) (start : double) (t : tick)
      (after : list tick) :
  elapsed_ms start (now t) > mw ->
  forall (before : list tick) (p : pacer),
    pace_loop (before ++ t :: after) words mw start p =
    pace_loop (before ++ [t]) words mw start p /\
    pace_loop (before ++ [t]) words mw start p <> None.
Proof.
  intros Hlate. induction before as [|b before IH]; intros p.
  - cbn [app pace_loop].
    destruct (Z.gtb_spec (elapsed_ms start (now t)) mw) as [_ | Hle]; [|lia].
    destruct (claim_for_alloc (contention t) words true
                (delays_add (elapsed_ms start (now t))
                            (interfere (world t) p))) as [ok p1].
    split; [reflexivity | discriminate].
  - cbn [app pace_loop].
    destruct (elapsed_ms start (now b) >? mw).
    + destruct (claim_for_alloc (contention b) words true
                  (delays_add (elapsed_ms start (now b))
                              (interfere (world b) p))) as [ok p1].
      split; [reflexivity | discriminate].
    + destruct (claim_for_alloc (contention b) words false
                  (interfere (world b) p)) as [ok p1].
      destruct ok; [split; [reflexivity | discriminate] | apply IH].
Qed.

(** X8. Once a reading of the clock lies past the maximal delay,
    [pace_for_alloc] has returned: the readings after it are never
    taken, so the call sleeps at most once per reading up to that one. *)
Theorem pace_for_alloc_stops_at_deadline :
  forall (env : schedule) (start : double) (before after : list tick)
         (t : tick) (words : Z) (p : pacer),
    elapsed_ms start (now t) > ShenandoahPacingMaxDelay fl ->
    pace_for_alloc fl env start (before ++ t :: after) words p =
    pace_for_alloc fl env start (before ++ [t]) words p /\
    pace_for_alloc fl env start (before ++ [t]) words p <> None.
Proof.
  intros env start before after t words p Hlate.
  unfold pace_for_alloc.
  destruct (claim_for_alloc env words false p) as [ok p1].
  destruct ok; [split; [reflexivity | discriminate]|].
  now apply pace_loop_stops.
Qed.

End MoreFacts.

(** ** The report *)

Lemma shl1_pow2 (n : Z) : 0 <= n < 31 -> shl1 n = 2 ^ n.
Proof.
  intros Hn. unfold shl1, to_int.
  rewrite Z.shiftl_mul_pow2, Z.mul_1_l by lia.
  assert (Hlt : 0 < 2 ^ n < 2 ^ 31).
  { split; [apply pow2_pos; lia | apply Z.pow_lt_mono_r; lia]. }
  rewrite Z.mod_small by lia.
  destruct (Z.ltb_spec (2 ^ n) (2 ^ 31)); lia.
Qed.

Lemma bucket_level (ms c : Z) :
  0 <= ms -> 0 <= c <= 30 ->
  (bucket ms = c <-> level_from c <= ms < level_to c).
Proof.
  intros Hms Hc. unfold bucket, level_from, level_to.
  rewrite (shl1_pow2 c) by lia.
  destruct (Z.eqb_spec c 0) as [-> | Hc0].
  - change (2 ^ 0) with 1.
    destruct (Z.eqb_spec ms 0) as [-> | Hnz]; [lia|].
    pose proof (Z.log2_nonneg ms). lia.
  - rewrite (shl1_pow2 (c - 1)) by lia.
    pose proof (pow2_pos (c - 1) ltac:(lia)) as Hp.
    destruct (Z.eqb_spec ms 0) as [-> | Hnz]; [lia|].
    pose proof (Z.log2_spec ms ltac:(lia)) as Hlog.
    pose proof (Z.log2_nonneg ms) as Hl0.
    split.
    + intros <-. replace (Z.log2 ms + 1 - 1) with (Z.log2 ms) by lia.
      replace (Z.log2 ms + 1) with (Z.succ (Z.log2 ms)) by lia. exact Hlog.
    + intros Hb.
      rewrite (Z.log2_unique ms (c - 1)); [lia | lia |].
      replace (Z.succ (c - 1)) with c by lia. exact Hb.
Qed.

Lemma rows_from_nth (max_level : Z) (h : histogram) (n : nat) :
  forall (c : Z) (k : nat),
    n = Z.to_nat (max_level - c + 1) ->
    length (rows_from n c max_level h) = n /\
    ((k < n)%nat ->
     nth_error (rows_from n c max_level h) k =
     Some (level_from (c + Z.of_nat k), level_to (c + Z.of_nat k),
           h (c + Z.of_nat k))).
Proof.
  induction n as [|n IH]; intros c k Hn.
  - split; [reflexivity | lia].
  - cbn [rows_from].
    destruct (Z.leb_spec c max_level) as [Hle | Hgt]; [|lia].
    destruct (IH (c + 1) (Nat.pred k) ltac:(lia)) as [Hlen Hnth].
    cbn [length]. split; [now rewrite Hlen|].
    intros Hk. destruct k as [|k].
    + cbn [nth_error]. now rewrite Z.add_0_r.
    + cbn [nth_error]. cbn [Nat.pred] in Hnth. rewrite Hnth by lia.
      replace (c + 1 + Z.of_nat k) with (c + Z.of_nat (S k)) by lia.
      reflexivity.
Qed.

(** X7. [print_on] prints one row per level from the lowest to the
    highest; below level 31 the row of a level shows the count of that
    level under two bounds that hold exactly the delays the histogram
    files under it. *)
Theorem print_on_rows_match_buckets :
  forall (min_level max_level : Z) (h : histogram) (k : nat),
    0 <= min_level -> max_level <= 30 ->
    (k < Z.to_nat (max_level - min_level + 1))%nat ->
    length (print_on min_level max_level h) =
      Z.to_nat (max_level - min_level + 1) /\
    exists from to,
      nth_error (print_on min_level max_level h) k =
        Some (from, to, h (min_level + Z.of_nat k)) /\
      forall ms, 0 <= ms ->
        (bucket ms = min_level + Z.of_nat k <-> from <= ms < to).
Proof.
  intros min_level max_level h k Hmin Hmax Hk. unfold print_on.
  destruct (rows_from_nth max_level h _ min_level k eq_refl) as [Hlen Hnth].
  split; [exact Hlen|].
  exists (level_from (min_level + Z.of_nat k)),
         (level_to (min_level + Z.of_nat k)).
  split; [now apply Hnth|].
  intros ms Hms. apply bucket_level; lia.
Qed.



(** ** The further properties at work *)

Import MoreExamples.

Lemma claim_all_accounts_witness :
  undisturbed nine /\
  claim_all (H := x86_64) nine p800 =
    (repeat true 8 ++ [false], mkPacer 0 d1_0 histogram_empty) /\
  budget (snd (claim_all (H := x86_64) nine p800)) =
    budget p800 -
    spent (H := x86_64) (tax_rate p800) nine
          (fst (claim_all (H := x86_64) nine p800)).
Proof.
  assert (H1 : undisturbed nine) by (repeat constructor).
  split; [exact H1|]. split; [vm_compute; reflexivity|].
  exact (proj1 (proj2 (claim_all_accounts (H := x86_64) nine p800 H1))).
Defined.

Lemma idle_claim_costs_words_witness :
  0 <= capacity hp /\
  0 <= ShenandoahPacingIdleSlack fl /\
  capacity hp * ShenandoahPacingIdleSlack fl <= LP64.max_uintx /\
  capacity hp * ShenandoahPacingIdleSlack fl / 100 < 2 ^ 53 /\
  0 <= 1000 < 2 ^ 53 /\
  claim_tax (H := x86_64) 1000
            (tax_rate (setup_for_idle (H := x86_64) fl [] hp p0)) =
    Z.max 1 1000.
Proof.
  assert (H1 : 0 <= capacity hp) by (vm_compute; discriminate).
  assert (H2 : 0 <= ShenandoahPacingIdleSlack fl) by (simpl; lia).
  assert (H3 : capacity hp * ShenandoahPacingIdleSlack fl <= LP64.max_uintx)
    by (vm_compute; discriminate).
  assert (H4 : capacity hp * ShenandoahPacingIdleSlack fl / 100 < 2 ^ 53)
    by (vm_compute; reflexivity).
  assert (H5 : 0 <= 1000 < 2 ^ 53) by lia.
  split; [exact H1|]. split; [exact H2|]. split; [exact H3|].
  split; [exact H4|]. split; [exact H5|].
  exact (proj1 (idle_claim_costs_words (H := x86_64) fl [] hp p0 1000 false
                  H1 H2 H3 H4 H5)).
Defined.

Lemma setup_for_evac_tax_witness :
  LP64.is_size_t (live_data hp) /\
  LP64.is_size_t (available hp) /\
  0 <= ShenandoahPacingCycleSlack fl <= 100 /\
  available hp * ShenandoahPacingCycleSlack fl <= LP64.max_uintx /\
  0 < available hp - available hp * ShenandoahPacingCycleSlack fl / 100 /\
  tax_rate (setup_for_evac (H := x86_64) fl [] hp p0) = of_Z 11 /\
  within tax_lo tax_hi
         (value (tax_rate (setup_for_evac (H := x86_64) fl [] hp p0)))
         (Qmax 1 (2 * inject_Z (live_data hp) /
                  inject_Z (available hp -
                            available hp * ShenandoahPacingCycleSlack fl / 100))
          * (11 # 10))%Q.
Proof.
  assert (H1 : LP64.is_size_t (live_data hp))
    by (vm_compute; split; discriminate).
  assert (H2 : LP64.is_size_t (available hp))
    by (vm_compute; split; discriminate).
  assert (H3 : 0 <= ShenandoahPacingCycleSlack fl <= 100) by (simpl; lia).
  assert (H4 : available hp * ShenandoahPacingCycleSlack fl <= LP64.max_uintx)
    by (vm_compute; discriminate).
  assert (H5 : 0 < available hp -
                   available hp * ShenandoahPacingCycleSlack fl / 100)
    by (vm_compute; reflexivity).
  split; [exact H1|]. split; [exact H2|]. split; [exact H3|].
  split; [exact H4|]. split; [exact H5|].
  split; [vm_compute; reflexivity|].
  exact (proj1 (proj2 (proj2 (setup_for_evac_tax (H := x86_64) fl [] hp p0
                                H1 H2 H3 H4 H5)))).
Defined.

Lemma setup_for_updaterefs_tax_witness :
  LP64.is_size_t (used hp) /\
  LP64.is_size_t (available hp) /\
  0 <= ShenandoahPacingCycleSlack fl <= 100 /\
  available hp * ShenandoahPacingCycleSlack fl <= LP64.max_uintx /\
  0 < available hp - available hp * ShenandoahPacingCycleSlack fl / 100 /\
  tax_rate (setup_for_updaterefs (H := x86_64) fl [] hp p0) = of_Z 11 /\
  within tax_lo tax_hi
         (value (tax_rate (setup_for_updaterefs (H := x86_64) fl [] hp p0)))
         (Qmax 1 (1 * inject_Z (used hp) /
                  inject_Z (available hp -
                            available hp * ShenandoahPacingCycleSlack fl / 100))
          * (11 # 10))%Q.
Proof.
  assert (H1 : LP64.is_size_t (used hp)) by (vm_compute; split; discriminate).
  assert (H2 : LP64.is_size_t (available hp))
    by (vm_compute; split; discriminate).
  assert (H3 : 0 <= ShenandoahPacingCycleSlack fl <= 100) by (simpl; lia).
  assert (H4 : available hp * ShenandoahPacingCycleSlack fl <= LP64.max_uintx)
    by (vm_compute; discriminate).
  assert (H5 : 0 < available hp -
                   available hp * ShenandoahPacingCycleSlack fl / 100)
    by (vm_compute; reflexivity).
  split; [exact H1|]. split; [exact H2|]. split; [exact H3|].
  split; [exact H4|]. split; [exact H5|].
  split; [vm_compute; reflexivity|].
  exact (proj1 (proj2 (proj2 (setup_for_updaterefs_tax (H := x86_64) fl [] hp
                                p0 H1 H2 H3 H4 H5)))).
Defined.

Lemma no_taxable_space_tax_witness :
  LP64.is_size_t (used full) /\
  LP64.is_size_t (live_data full) /\
  taxable_of fl full = 0 /\
  tax_rate (setup_for_mark (H := x86_64) fl [] full p0) =
    (if used full =? 0 then S754_nan else S754_infinity false).
Proof.
  assert (H1 : LP64.is_size_t (used full))
    by (vm_compute; split; discriminate).
  assert (H2 : LP64.is_size_t (live_data full))
    by (vm_compute; split; discriminate).
  assert (H3 : taxable_of fl full = 0) by (vm_compute; reflexivity).
  split; [exact H1|]. split; [exact H2|]. split; [exact H3|].
  exact (proj1 (no_taxable_space_tax (H := x86_64) fl [] full p0 H1 H2 H3)).
Defined.

Lemma print_on_rows_match_buckets_witness :
  0 <= 0 /\ 5 <= 30 /\ (4 < Z.to_nat (5 - 0 + 1))%nat /\
  nth_error (print_on 0 5 seen15) 4 = Some (8, 16, 1) /\
  length (print_on 0 5 seen15) = Z.to_nat (5 - 0 + 1).
Proof.
  assert (H1 : 0 <= 0) by lia.
  assert (H2 : 5 <= 30) by lia.
  assert (H3 : (4 < Z.to_nat (5 - 0 + 1))%nat) by (vm_compute; lia).
  split; [exact H1|]. split; [exact H2|]. split; [exact H3|].
  split; [vm_compute; reflexivity|].
  exact (proj1 (print_on_rows_match_buckets 0 5 seen15 4 H1 H2 H3)).
Defined.

Lemma pace_for_alloc_stops_at_deadline_witness :
  elapsed_ms (H := x86_64) (of_Z 0) (now late) > ShenandoahPacingMaxDelay fl /\
  pace_for_alloc (H := x86_64) fl [] (of_Z 0)
                 (firstn 1 ticks ++ late :: ticks) 1000 p0 =
  pace_for_alloc (H := x86_64) fl [] (of_Z 0)
                 (firstn 1 ticks ++ [late]) 1000 p0.
Proof.
  assert (H1 : elapsed_ms (H := x86_64) (of_Z 0) (now late) >
               ShenandoahPacingMaxDelay fl) by (vm_compute; reflexivity).
  split; [exact H1|].
  exact (proj1 (pace_for_alloc_stops_at_deadline (H := x86_64) fl [] (of_Z 0)
                  (firstn 1 ticks) ticks late 1000 p0 H1)).
Defined.

Lemma pace_for_alloc_alone_times_out_witness :
  quiet_world ticks /\
  budget p0 < claim_tax (H := x86_64) 1000 (tax_rate p0) /\
  pace_for_alloc (H := x86_64) fl [] (of_Z 0) ticks 1000 p0 =
    Some (TimedOut 15, mkPacer 500 d1_0 (histogram_add 15 histogram_empty)) /\
  exists ms, TimedOut 15 = TimedOut ms /\ ShenandoahPacingMaxDelay fl < ms.
Proof.
  assert (H1 : quiet_world ticks)
    by (repeat constructor; intros s; reflexivity).
  assert (H2 : budget p0 < claim_tax (H := x86_64) 1000 (tax_rate p0))
    by (vm_compute; reflexivity).
  assert (H3 : pace_for_alloc (H := x86_64) fl [] (of_Z 0) ticks 1000 p0 =
               Some (TimedOut 15,
                     mkPacer 500 d1_0 (histogram_add 15 histogram_empty)))
    by (vm_compute; reflexivity).
  split; [exact H1|]. split; [exact H2|]. split; [exact H3|].
  exact (pace_for_alloc_alone_times_out (H := x86_64) fl (of_Z 0) ticks 1000
           p0 _ _ H1 H2 H3).
Defined.

Lemma taxable_positive_iff_witness :
  LP64.is_size_t (available hp) /\
  0 <= ShenandoahPacingCycleSlack fl <= 100 /\
  available hp * ShenandoahPacingCycleSlack fl <= LP64.max_uintx /\
  (0 < taxable_of fl hp <->
   0 < available hp /\ ShenandoahPacingCycleSlack fl < 100).
Proof.
  assert (H1 : LP64.is_size_t (available hp))
    by (vm_compute; split; discriminate).
  assert (H2 : 0 <= ShenandoahPacingCycleSlack fl <= 100) by (simpl; lia).
  assert (H3 : available hp * ShenandoahPacingCycleSlack fl <= LP64.max_uintx)
    by (vm_compute; discriminate).
  split; [exact H1|]. split; [exact H2|]. split; [exact H3|].
  exact (proj1 (taxable_positive_iff fl hp H1 H2 H3)).
Defined.

Lemma restart_with_budget_bounds_witness :
  0 < 1 * MB < 2 ^ 63 /\
  pos_normal (-1022) 900 (of_Z 33) /\
  (ulp_hi * ulp_hi * (inject_Z (1 * MB) * value (of_Z 33)) <
   inject_Z (2 ^ 64))%Q /\
  budget (restart_with (H := x86_64) [] (1 * MB) (of_Z 33) p0) = 4325376 /\
  (inject_Z (8 * budget (restart_with (H := x86_64) [] (1 * MB) (of_Z 33) p0))
   <= ulp_hi * ulp_hi * (inject_Z (1 * MB) * value (of_Z 33)))%Q.
Proof.
  assert (H1 : 0 < 1 * MB < 2 ^ 63) by (vm_compute; split; reflexivity).
  assert (H2 : pos_normal (-1022) 900 (of_Z 33)).
  { exists 4644337115725824%positive, (-47).
    split; [reflexivity|]. split; lia. }
  assert (H3 : (ulp_hi * ulp_hi * (inject_Z (1 * MB) * value (of_Z 33)) <
                inject_Z (2 ^ 64))%Q) by (vm_compute; reflexivity).
  split; [exact H1|]. split; [exact H2|]. split; [exact H3|].
  split; [vm_compute; reflexivity|].
  exact (proj1 (restart_with_budget_bounds (H := x86_64) [] (1 * MB) (of_Z 33)
                  p0 H1 H2 H3)).
Defined.
